(** * ProjectSummarizeTree.py: a shallow embedding and its properties

    The program walks a directory tree, prints an indented tree view and
    annotates every file with a summary obtained from a remote service.

    Layout of this development:
    - [PyStr]     Python [str] values as sequences of code points, with the
                  built-in operations the program uses ([sorted], [strip],
                  [split], [join], [expandtabs], comparison);
    - [platform]  what differs between operating systems and the Unicode
                  tables of the interpreter;
    - [Fnmatch]   the standard library's [fnmatch] (pattern translation and
                  matching);
    - [Textwrap]  the standard library's [textwrap.fill] with the default
                  options of [TextWrapper];
    - [Effects]   exceptions, observable events and the small monad in which
                  the effectful functions are written;
    - the program itself: [summarize_file] and [print_tree];
    - the notions the properties are stated with, lemmas about the
      libraries and the program, and the claims C1 to C10. *)

From Stdlib Require Import List NArith Arith Bool Lia.
From Stdlib Require Import Sorted Permutation.
From Stdlib Require String Ascii.
Import ListNotations.
Import String.StringSyntax.
Delimit Scope string_scope with string.
Local Open Scope list_scope.

(* ================================================================= *)
(** ** Python strings *)

Module PyStr.

(** A Python [str] is a sequence of Unicode code points; [len] counts code
    points and comparison is lexicographic on them. *)
Definition char := N.
Definition str := list char.

Definition is_cont (b : N) : bool := (128 <=? b)%N && (b <=? 191)%N.

(** Second byte of a three-byte sequence: no overlong form (lead E0) and no
    surrogate (lead ED). *)
Definition second3_ok (b0 b1 : N) : bool :=
  if (b0 =? 224)%N then (160 <=? b1)%N && (b1 <=? 191)%N
  else if (b0 =? 237)%N then (128 <=? b1)%N && (b1 <=? 159)%N
  else is_cont b1.

(** Second byte of a four-byte sequence: no overlong form (lead F0) and
    nothing above U+10FFFF (lead F4). *)
Definition second4_ok (b0 b1 : N) : bool :=
  if (b0 =? 240)%N then (144 <=? b1)%N && (b1 <=? 191)%N
  else if (b0 =? 244)%N then (128 <=? b1)%N && (b1 <=? 143)%N
  else is_cont b1.

(** Strict UTF-8 decoding of a byte sequence ([errors='strict']):
    [None] stands for [UnicodeDecodeError]. *)
Fixpoint utf8_decode (bs : list N) : option str :=
  match bs with
  | [] => Some []
  | b0 :: t0 =>
    if (b0 <? 128)%N then option_map (cons b0) (utf8_decode t0)
    else if (194 <=? b0)%N && (b0 <=? 223)%N then
      match t0 with
      | b1 :: t1 =>
        if is_cont b1
        then option_map (cons ((b0 - 192) * 64 + (b1 - 128))%N) (utf8_decode t1)
        else None
      | _ => None
      end
    else if (224 <=? b0)%N && (b0 <=? 239)%N then
      match t0 with
      | b1 :: b2 :: t2 =>
        if second3_ok b0 b1 && is_cont b2
        then option_map
               (cons ((b0 - 224) * 4096 + (b1 - 128) * 64 + (b2 - 128))%N)
               (utf8_decode t2)
        else None
      | _ => None
      end
    else if (240 <=? b0)%N && (b0 <=? 244)%N then
      match t0 with
      | b1 :: b2 :: b3 :: t3 =>
        if second4_ok b0 b1 && is_cont b2 && is_cont b3
        then option_map
               (cons ((b0 - 240) * 262144 + (b1 - 128) * 4096
                      + (b2 - 128) * 64 + (b3 - 128))%N)
               (utf8_decode t3)
        else None
      | _ => None
      end
    else None
  end.

Definition bytes_of_string (s : String.string) : list N :=
  map Ascii.N_of_ascii (String.list_ascii_of_string s).

(** A string literal of the source file (the file is UTF-8 encoded). *)
Definition py (s : String.string) : str :=
  match utf8_decode (bytes_of_string s) with
  | Some l => l
  | None => []
  end.

Arguments py s%_string.

Definition LF : char := 10%N.
Definition SP : char := 32%N.
Definition HYPHEN : char := 45%N.

Definition str_eqb (a b : str) : bool :=
  if list_eq_dec N.eq_dec a b then true else false.

(** [a < b] on [str]: lexicographic order on code points. *)
Fixpoint str_ltb (a b : str) : bool :=
  match a, b with
  | [], [] => false
  | [], _ :: _ => true
  | _ :: _, [] => false
  | x :: a', y :: b' =>
    if (x <? y)%N then true
    else if (y <? x)%N then false
    else str_ltb a' b'
  end.

Definition str_lt (a b : str) : Prop := str_ltb a b = true.

(** [sorted(xs)]: a stable sort by [<].  Insertion from the right keeps
    equal elements in their original order, as Python's sort does; on
    [str] equal elements are indistinguishable anyway. *)
Fixpoint insert_sorted (x : str) (l : list str) : list str :=
  match l with
  | [] => [x]
  | y :: l' => if str_ltb y x then y :: insert_sorted x l' else x :: l
  end.

Definition sorted (l : list str) : list str := fold_right insert_sorted [] l.

(** [str.isspace] on one code point: the Unicode whitespace characters
    that [str.strip()] removes. *)
Definition isspace (c : char) : bool :=
  ((9 <=? c) && (c <=? 13) || (28 <=? c) && (c <=? 32)
   || (c =? 133) || (c =? 160) || (c =? 5760)
   || (8192 <=? c) && (c <=? 8202)
   || (c =? 8232) || (c =? 8233) || (c =? 8239) || (c =? 8287)
   || (c =? 12288))%N.

Fixpoint lstrip (s : str) : str :=
  match s with
  | c :: s' => if isspace c then lstrip s' else s
  | [] => []
  end.

Definition rstrip (s : str) : str := rev (lstrip (rev s)).

(** [s.strip()] *)
Definition strip (s : str) : str := rstrip (lstrip s).

(** [sep.join(parts)] for a one-character separator. *)
Fixpoint join (sep : char) (parts : list str) : str :=
  match parts with
  | [] => []
  | [p] => p
  | p :: rest => p ++ sep :: join sep rest
  end.

(** [s.split(sep)] for a one-character separator: never the empty list. *)
Fixpoint split (sep : char) (s : str) : list str :=
  match s with
  | [] => [[]]
  | c :: s' =>
    if (c =? sep)%N then [] :: split sep s'
    else match split sep s' with
         | p :: ps => (c :: p) :: ps
         | [] => [[c]]
         end
  end.

(** [s.startswith(p)] *)
Fixpoint startswith (s p : str) : bool :=
  match p, s with
  | [], _ => true
  | _ :: _, [] => false
  | x :: p', y :: s' => (x =? y)%N && startswith s' p'
  end.

(** [s.endswith(p)] *)
Definition endswith (s p : str) : bool := startswith (rev s) (rev p).

(** [' ' * n] *)
Definition spaces (n : nat) : str := repeat SP n.

End PyStr.
Import PyStr.

(* ================================================================= *)
(** ** The run-time platform *)

(** What the interpreter and the operating system decide, not the program:
    [os.path.normcase] and [os.path.join] (they differ between POSIX and
    Windows) and the Unicode character database behind the regular
    expression classes [\w] and [\d] that [textwrap] uses. *)
Record platform := {
  normcase : str -> str;
  path_join : str -> str -> str;
  isalnum : char -> bool;     (* [str.isalnum] on one code point *)
  isdecimal : char -> bool    (* [str.isdecimal] on one code point *)
}.

(** [posixpath.join(a, b)] for two components. *)
Definition posix_join (a b : str) : str :=
  if startswith b (py "/") then b
  else match a with
       | [] => b
       | _ => if endswith a (py "/") then a ++ b else a ++ py "/" ++ b
       end.

Definition ascii_alnum (c : char) : bool :=
  ((48 <=? c) && (c <=? 57) || (65 <=? c) && (c <=? 90)
   || (97 <=? c) && (c <=? 122))%N.

Definition ascii_decimal (c : char) : bool := ((48 <=? c) && (c <=? 57))%N.

(** A POSIX platform; its character classes are exact on ASCII and empty
    above it, which is all the concrete examples below need. *)
Definition posix : platform := {|
  normcase := fun s => s;
  path_join := posix_join;
  isalnum := ascii_alnum;
  isdecimal := ascii_decimal
|}.

(* ================================================================= *)
(** ** fnmatch *)

Module Fnmatch.

(** One element of a bracket expression after [translate] has rewritten
    it: a character, or the hyphen that makes a range of its neighbours. *)
Inductive set_tok := Ch (c : char) | Dash.

(** The pieces of the regular expression [translate] builds. *)
Inductive item :=
| STAR                                   (* [.*] *)
| DOT                                    (* [.] under the flag [s] *)
| LIT (c : char)                         (* [re.escape(c)] *)
| SET (neg : bool) (toks : list set_tok) (* [[...]] or [[^...]] *)
| NEVER.                                 (* [(?!)] *)

Definition c_star : char := 42%N.
Definition c_qmark : char := 63%N.
Definition c_lbrack : char := 91%N.
Definition c_rbrack : char := 93%N.
Definition c_bang : char := 33%N.

(** Splits [s] at the first [c]: the part before it and the part after. *)
Fixpoint break_at (c : char) (s : str) : option (str * str) :=
  match s with
  | [] => None
  | x :: s' =>
    if (x =? c)%N then Some ([], s')
    else match break_at c s' with
         | Some (a, b) => Some (x :: a, b)
         | None => None
         end
  end.

(** The scan for the closing bracket: [rest] is what follows "[".
    Returns [pat[i:j]]; [None] when there is no closing bracket. *)
Definition class_body (rest : str) : option str :=
  let '(bang, r1) :=
    match rest with
    | x :: r => if (x =? c_bang)%N then ([x], r) else ([], rest)
    | [] => ([], rest)
    end in
  let '(brk, r2) :=
    match r1 with
    | x :: r => if (x =? c_rbrack)%N then ([x], r) else ([], r1)
    | [] => ([], r1)
    end in
  match break_at c_rbrack r2 with
  | Some (mid, _) => Some (bang ++ brk ++ mid)
  | None => None
  end.

(** [s.find('-', k)]: index of the first hyphen at or after [k]. *)
Fixpoint find_hyphen (k : nat) (s : str) : option nat :=
  match k, s with
  | _, [] => None
  | O, c :: s' =>
    if (c =? HYPHEN)%N then Some 0
    else option_map S (find_hyphen 0 s')
  | S k', _ :: s' => option_map S (find_hyphen k' s')
  end.

(** The [while True] loop that cuts the body at the hyphens that denote
    ranges.  [s] is [pat[i:j]] and [k] is relative to [i]; the result is
    [chunks] and the rest [pat[i:j]] that follows the last such hyphen. *)
Fixpoint range_chunks (fuel k : nat) (s : str) : list str * str :=
  match fuel with
  | O => ([], s)
  | S f =>
    match find_hyphen k s with
    | None => ([], s)
    | Some h =>
      let '(cs, last) := range_chunks f 2 (skipn (S h) s) in
      (firstn h s :: cs, last)
    end
  end.

(** [if chunk: chunks.append(chunk) else: chunks[-1] += '-'] *)
Definition close_chunks (r : list str * str) : list str :=
  let '(cs, last) := r in
  match last with
  | _ :: _ => cs ++ [last]
  | [] => match rev cs with
          | l :: r => rev ((l ++ [HYPHEN]) :: r)
          | [] => []
          end
  end.

(** Removal of empty ranges, from the right end to the left as the
    [for k in range(len(chunks)-1, 0, -1)] loop does. *)
Fixpoint drop_empty_ranges (chunks : list str) : list str :=
  match chunks with
  | [] => []
  | c :: rest =>
    match drop_empty_ranges rest with
    | [] => [c]
    | d :: rest' =>
      match rev c, d with
      | x :: _, y :: d' =>
        if (y <? x)%N then (removelast c ++ d') :: rest' else c :: d :: rest'
      | _, _ => c :: d :: rest'
      end
    end
  end.

(** One chunk with its own hyphens escaped: every character is literal. *)
Definition lits (s : str) : list set_tok := map Ch s.

(** ['-'.join(...)]: the joining hyphens are the range operators. *)
Fixpoint join_chunks (chunks : list str) : list set_tok :=
  match chunks with
  | [] => []
  | [c] => lits c
  | c :: rest => lits c ++ Dash :: join_chunks rest
  end.

Definition has_hyphen (s : str) : bool := existsb (fun c => (c =? HYPHEN)%N) s.

(** The rewritten body [stuff] of a bracket expression. *)
Definition stuff_of (body : str) : list set_tok :=
  if has_hyphen body then
    let k := match body with
             | x :: _ => if (x =? c_bang)%N then 2 else 1
             | [] => 1
             end in
    join_chunks
      (drop_empty_ranges (close_chunks (range_chunks (length body) k body)))
  else lits body.

Definition class_item (body : str) : item :=
  match stuff_of body with
  | [] => NEVER
  | Ch c :: rest =>
    if (c =? c_bang)%N
    then match rest with [] => DOT | _ => SET true rest end
    else SET false (Ch c :: rest)
  | Dash :: rest => SET false rest
  end.

(** The first loop of [translate]; [skip] counts the characters of a
    bracket expression that the index [i] has already jumped over. *)
Fixpoint translate_from (skip : nat) (pat : str) : list item :=
  match pat with
  | [] => []
  | c :: rest =>
    match skip with
    | S k => translate_from k rest
    | O =>
      if (c =? c_star)%N then
        match translate_from 0 rest with
        | STAR :: more => STAR :: more      (* consecutive stars compressed *)
        | more => STAR :: more
        end
      else if (c =? c_qmark)%N then DOT :: translate_from 0 rest
      else if (c =? c_lbrack)%N then
        match class_body rest with
        | Some body => class_item body :: translate_from (S (length body)) rest
        | None => LIT c :: translate_from 0 rest
        end
      else LIT c :: translate_from 0 rest
    end
  end.

Definition translate (pat : str) : list item := translate_from 0 pat.

(** Membership in a bracket expression as the regular expression engine
    reads it: [x-y] is a range, everything else stands for itself. *)
Fixpoint in_set (toks : list set_tok) (x : char) : bool :=
  match toks with
  | [] => false
  | Ch a :: Dash :: Ch b :: rest =>
    ((a <=? x)%N && (x <=? b)%N) || in_set rest x
  | Ch a :: rest => (a =? x)%N || in_set rest x
  | Dash :: rest => in_set rest x
  end.

Definition item_matches (it : item) (x : char) : bool :=
  match it with
  | STAR => true
  | DOT => true
  | LIT c => (c =? x)%N
  | SET neg toks => xorb neg (in_set toks x)
  | NEVER => false
  end.

(** [re.compile(translate(pat)).match(name)]: the whole name must match
    (the expression ends in [\Z]). *)
Fixpoint matches (items : list item) (name : str) : bool :=
  match items with
  | [] => match name with [] => true | _ => false end
  | STAR :: more =>
    (fix star (s : str) : bool :=
       matches more s ||
       match s with
       | [] => false
       | _ :: s' => star s'
       end) name
  | it :: more =>
    match name with
    | [] => false
    | x :: name' => item_matches it x && matches more name'
    end
  end.

Definition fnmatchcase (name pat : str) : bool := matches (translate pat) name.

Definition fnmatch (pf : platform) (name pat : str) : bool :=
  fnmatchcase (normcase pf name) (normcase pf pat).

End Fnmatch.

(* ================================================================= *)
(** ** textwrap *)

(** [textwrap.fill(text, width)] with the defaults of [TextWrapper]:
    [expand_tabs], [replace_whitespace], [break_long_words],
    [drop_whitespace] and [break_on_hyphens] on, [tabsize] 8, empty
    indents, no [fix_sentence_endings], no [max_lines]. *)
Module Textwrap.

(** [_whitespace = '\t\n\x0b\x0c\r '] *)
Definition is_ws (c : char) : bool :=
  ((c =? 9) || (c =? 10) || (c =? 11) || (c =? 12) || (c =? 13) || (c =? 32))%N.

(** [text.expandtabs(tabsize)]; [col] is the column in the current line. *)
Fixpoint expandtabs (tabsize col : nat) (s : str) : str :=
  match s with
  | [] => []
  | c :: s' =>
    if (c =? 9)%N then
      let incr := tabsize - (col mod tabsize) in
      spaces incr ++ expandtabs tabsize (col + incr) s'
    else if (c =? 10)%N || (c =? 13)%N then c :: expandtabs tabsize 0 s'
    else c :: expandtabs tabsize (S col) s'
  end.

(** [_munge_whitespace] *)
Definition munge_whitespace (text : str) : str :=
  map (fun c => if is_ws c then SP else c) (expandtabs 8 0 text).

Section Split.

Variable pf : platform.

(** [\w] *)
Definition word_char (c : char) : bool := isalnum pf c || (c =? 95)%N.

(** [letter = [^\d\W]] *)
Definition letter (c : char) : bool := word_char c && negb (isdecimal pf c).

(** [word_punct]: a word character or one of the seven marks
    ! (33), double quote (34), & (38), apostrophe (39), comma (44),
    full stop (46), ? (63). *)
Definition word_punct (c : char) : bool :=
  (word_char c || (c =? 33) || (c =? 34) || (c =? 39) || (c =? 38)
   || (c =? 46) || (c =? 44) || (c =? 63))%N.

Fixpoint ws_run (s : str) : nat :=
  match s with
  | c :: s' => if is_ws c then S (ws_run s') else 0
  | [] => 0
  end.

Fixpoint hyphen_run (s : str) : nat :=
  match s with
  | c :: s' => if (c =? HYPHEN)%N then S (hyphen_run s') else 0
  | [] => 0
  end.

(** [-{2,}(?=\w)] at the head of [s]: the length of the run of hyphens.
    The quantifier is greedy and giving a hyphen back leaves a hyphen,
    which is not a word character, under the lookahead. *)
Definition emdash_here (s : str) : option nat :=
  let n := hyphen_run s in
  if 2 <=? n then
    match skipn n s with
    | c :: _ => if word_char c then Some n else None
    | [] => None
    end
  else None.

(** The first ending of the third alternative, a hyphen inside a word:
    [-(?:(?<=lt{2}-)|(?<=lt-lt-))(?=lt -? lt)].  [before] holds the text
    to the left of [s], nearest character first. *)
Definition hyphen_break (before s : str) : bool :=
  match s with
  | c :: after =>
    (c =? HYPHEN)%N &&
    match before with
    | p1 :: p2 :: more =>
      (letter p2 && letter p1)
      || match more with
         | p3 :: _ => letter p3 && (p2 =? HYPHEN)%N && letter p1
         | [] => false
         end
    | _ => false
    end &&
    match after with
    | r0 :: r1 :: after2 =>
      letter r0 &&
      (if (r1 =? HYPHEN)%N
       then match after2 with r2 :: _ => letter r2 | [] => false end
       else letter r1)
    | _ => false
    end
  | [] => false
  end.

(** The third ending, before an em-dash: [(?<=wp)(?=-{2,}\w)]. *)
Definition emdash_after (before s : str) : bool :=
  match before with
  | p1 :: _ =>
    word_punct p1 && match emdash_here s with Some _ => true | None => false end
  | [] => false
  end.

(** How many more characters the lazy [nws+?] takes before one of the
    three endings matches; the hyphen of the first ending is counted. *)
Fixpoint word_end (before s : str) : nat :=
  match s with
  | [] => 0
  | c :: s' =>
    if hyphen_break before s then 1
    else if is_ws c then 0
    else if emdash_after before s then 0
    else S (word_end (c :: before) s')
  end.

(** The length of the match of [wordsep_re] at the head of [s]. *)
Definition chunk_len (before s : str) : nat :=
  match s with
  | [] => 0
  | c :: s' =>
    if is_ws c then ws_run s
    else
      match match before with
            | p :: _ => if word_punct p then emdash_here s else None
            | [] => None
            end with
      | Some n => n
      | None => S (word_end (c :: before) s')
      end
  end.

(** [wordsep_re.split(text)] without the empty strings. *)
Fixpoint split_from (fuel : nat) (before s : str) : list str :=
  match fuel, s with
  | S f, _ :: _ =>
    let n := chunk_len before s in
    firstn n s :: split_from f (rev (firstn n s) ++ before) (skipn n s)
  | _, _ => []
  end.

(** [_split_chunks] *)
Definition split_chunks (text : str) : list str :=
  let t := munge_whitespace text in
  split_from (length t) [] t.

End Split.

(** [chunk.strip() == ''] *)
Definition blankb (s : str) : bool :=
  match strip s with [] => true | _ :: _ => false end.

(** The inner [while chunks] loop: chunks are taken while they fit. *)
Fixpoint take_fitting (width cur_len : nat) (chunks : list str)
  : list str * nat * list str :=
  match chunks with
  | c :: rest =>
    if cur_len + length c <=? width then
      let '(line, len, rem) := take_fitting width (cur_len + length c) rest in
      (c :: line, len, rem)
    else ([], cur_len, chunks)
  | [] => ([], cur_len, [])
  end.

(** [chunk.rfind('-', 0, stop)], counting positions from [i]. *)
Fixpoint rfind_hyphen (i : nat) (chunk : str) (stop : nat) : option nat :=
  match chunk, stop with
  | c :: chunk', S stop' =>
    match rfind_hyphen (S i) chunk' stop' with
    | Some h => Some h
    | None => if (c =? HYPHEN)%N then Some i else None
    end
  | _, _ => None
  end.

(** [_handle_long_word]: the new [cur_line] and the new chunk stack. *)
Definition handle_long_word (chunks cur_line : list str) (cur_len width : nat)
  : list str * list str :=
  let space_left := if width <? 1 then 1 else width - cur_len in
  match chunks with
  | chunk :: rest =>
    let end_ :=
      if space_left <? length chunk then
        match rfind_hyphen 0 chunk space_left with
        | Some hyphen =>
          if (0 <? hyphen)
             && existsb (fun c => negb (c =? HYPHEN)%N) (firstn hyphen chunk)
          then hyphen + 1 else space_left
        | None => space_left
        end
      else space_left in
    (cur_line ++ [firstn end_ chunk], skipn end_ chunk :: rest)
  | [] => (cur_line, [])
  end.

(** One turn of the outer loop of [_wrap_chunks], for a non-empty chunk
    stack [c0 :: rest0]: the chunks of the line it builds (empty when it
    builds none) and the chunk stack it leaves.  [have_lines] is
    [bool(lines)]. *)
Definition next_line (width : nat) (have_lines : bool) (c0 : str)
  (rest0 : list str) : list str * list str :=
  let chunks1 := if blankb c0 && have_lines then rest0 else c0 :: rest0 in
  let '(line1, cur_len, chunks2) := take_fitting width 0 chunks1 in
  let '(line2, chunks3) :=
    match chunks2 with
    | c :: _ =>
      if width <? length c
      then handle_long_word chunks2 line1 cur_len width
      else (line1, chunks2)
    | [] => (line1, chunks2)
    end in
  let line3 :=
    match rev line2 with
    | l :: r => if blankb l then rev r else line2
    | [] => line2
    end in
  (line3, chunks3).

(** The outer loop of [_wrap_chunks]; [None] only when the fuel runs
    out. *)
Fixpoint wrap_loop (fuel width : nat) (have_lines : bool) (chunks : list str)
  : option (list str) :=
  match chunks with
  | [] => Some []
  | c0 :: rest0 =>
    match fuel with
    | O => None
    | S f =>
      let '(cur_line, chunks') := next_line width have_lines c0 rest0 in
      match cur_line with
      | [] => wrap_loop f width have_lines chunks'
      | _ :: _ =>
        option_map (cons (concat cur_line)) (wrap_loop f width true chunks')
      end
    end
  end.

(** Every turn of the outer loop removes a chunk or at least one
    character of a chunk, so this many turns are enough. *)
Definition wrap_fuel (chunks : list str) : nat :=
  S (length (concat chunks) + length chunks).

(** [_wrap_chunks] *)
Definition wrap_chunks (width : nat) (chunks : list str) : option (list str) :=
  wrap_loop (wrap_fuel chunks) width false chunks.

(** [TextWrapper(width=width).wrap(text)] *)
Definition wrap (pf : platform) (width : nat) (text : str) : list str :=
  match wrap_chunks width (split_chunks pf text) with
  | Some lines => lines
  | None => []
  end.

(** [textwrap.fill(text, width=width)] *)
Definition fill (pf : platform) (width : nat) (text : str) : str :=
  join LF (wrap pf width text).

End Textwrap.

(* ================================================================= *)
(** ** Exceptions, events and the effect monad *)

Module Effects.

(** The classes of the exceptions the file system and the summarizer
    raise.  All of them derive from [Exception]; asynchronous
    [BaseException]s ([KeyboardInterrupt], [SystemExit]) are outside the
    model. *)
Inductive exc_class :=
| PermissionError
| FileNotFoundError
| NotADirectoryError
| OSError
| UnicodeDecodeError
| OtherException.

(** An exception instance: its class and [str(e)]. *)
Record exn := { exn_class : exc_class; exn_str : str }.

(** [isinstance(e, PermissionError)] *)
Definition is_PermissionError (e : exn) : bool :=
  match exn_class e with PermissionError => true | _ => false end.

Inductive outcome (A : Type) :=
| Returns (a : A)
| Raises (e : exn).
Arguments Returns {A} a.
Arguments Raises {A} e.

(** What the program does to the world, in the order it does it. *)
Inductive event :=
| EvListdir (path : str)                          (* [os.listdir(path)] *)
| EvIsdir (path : str)                            (* [os.path.isdir(path)] *)
| EvOpenRead (path mode encoding : str) (errors : option str) (max_chars : nat)
    (* [open(path, mode, encoding=encoding)], with [errors=...] when given
       (without it decoding is strict), and [f.read(max_chars)] *)
| EvRequest (model input : str)                   (* [client.responses.create] *)
| EvPrint (line : str).
    (* [print(line)]; writing to the standard output is taken to succeed *)

(** A computation: the events it produced and how it ended. *)
Definition M (A : Type) : Type := list event * outcome A.

Definition ret {A} (a : A) : M A := ([], Returns a).

Definition bind {A B} (m : M A) (k : A -> M B) : M B :=
  match m with
  | (t, Returns a) => let '(t', r) := k a in (t ++ t', r)
  | (t, Raises e) => (t, Raises e)
  end.

Definition emit (ev : event) : M unit := ([ev], Returns tt).

Definition raise {A} (e : exn) : M A := ([], Raises e).

Definition trace {A} (m : M A) : list event := fst m.
Definition result {A} (m : M A) : outcome A := snd m.

(** [for index, x in enumerate(l, index): body] *)
Fixpoint for_each {A} (body : nat -> A -> M unit) (index : nat) (l : list A)
  : M unit :=
  match l with
  | [] => ret tt
  | x :: l' => bind (body index x) (fun _ => for_each body (S index) l')
  end.

(** The lines a trace prints. *)
Fixpoint printed (t : list event) : list str :=
  match t with
  | [] => []
  | EvPrint line :: t' => line :: printed t'
  | _ :: t' => printed t'
  end.

End Effects.
Import Effects.

Notation "x <- m ;; k" := (bind m (fun x => k))
  (at level 61, m at next level, right associativity).
Notation "m ;; k" := (bind m (fun _ => k))
  (at level 61, right associativity).

(* ================================================================= *)
(** ** The file system and the summarizer, as the program meets them *)

(** A path that is not a directory.  [f_read n] is what
    [open(path, 'r', encoding='utf-8')] followed by [f.read(n)] gives:
    the text, or the exception of either call (an [OSError] from [open],
    a [UnicodeDecodeError] when the strict decoder meets bytes that are
    not UTF-8).  [f_respond prompt] is what the request to the summarizer
    for this file gives: [response.output_text], or the exception raised
    inside the [try] block. *)
Record file_obj := {
  f_read : nat -> outcome str;
  f_respond : str -> outcome str
}.

(** A directory is its listing, or the exception [os.listdir] raises for
    it; a listing names files and directories.  The tree is finite: a
    cycle of symbolic links is outside the model. *)
Inductive dir :=
| Listed (entries : list (str * entry))
| NoList (e : exn)
with entry :=
| IsFile (f : file_obj)
| IsDir (d : dir).

(** What a path resolves to when the loop body looks at it. *)
Inductive resolved :=
| RFile (f : file_obj)
| RDir (walk : str -> str -> M unit).

(** A path that resolves to nothing: [os.path.isdir] is false and [open]
    raises.  (The message is the one for a path that needs no escaping.) *)
Definition vanished (path : str) : file_obj := {|
  f_read := fun _ =>
    Raises {| exn_class := FileNotFoundError;
              exn_str := py "[Errno 2] No such file or directory: '"
                         ++ path ++ py "'" |};
  f_respond := fun _ => Returns []
|}.

Fixpoint lookup {A} (name : str) (l : list (str * A)) : option A :=
  match l with
  | [] => None
  | (k, v) :: l' => if str_eqb k name then Some v else lookup name l'
  end.

(* ================================================================= *)
(** ** The program *)

Definition READ_ERROR : str := Eval vm_compute in py "[読み取りエラー: ".
Definition SUMMARY_ERROR : str := Eval vm_compute in py "[要約エラー: ".
Definition NO_ACCESS : str := Eval vm_compute in py "[アクセス権限なし: ".
Definition CLOSE : str := Eval vm_compute in py "]".
Definition INSTRUCTION : str :=
  Eval vm_compute in
    py "次のファイルの内容を短く要約してください（日本語で、1〜2文程度）:".
Definition FENCE : str := Eval vm_compute in py "```".
Definition MODEL : str := Eval vm_compute in py "gpt-4.1".
Definition BRANCH_LAST : str := Eval vm_compute in py "└── ".
Definition BRANCH_MID : str := Eval vm_compute in py "├── ".
Definition INDENT_LAST : str := Eval vm_compute in py "    ".
Definition INDENT_MID : str := Eval vm_compute in py "│   ".
Definition DASH_SEP : str := Eval vm_compute in py " - ".
Definition SLASH : str := Eval vm_compute in py "/".
Definition TWO_SPACES : str := Eval vm_compute in py "  ".

(** The prompt built from the file content. *)
Definition prompt_of (content : str) : str :=
  INSTRUCTION ++ [LF] ++ FENCE ++ [LF] ++ content ++ [LF] ++ FENCE.

(** [summarize_file(path, max_chars)] *)
Definition summarize_file (path : str) (max_chars : nat) (f : file_obj)
  : M str :=
  emit (EvOpenRead path (py "r") (py "utf-8") None max_chars) ;;
  match f_read f max_chars with
  | Raises e => ret (READ_ERROR ++ exn_str e ++ CLOSE)
  | Returns content =>
    let prompt := prompt_of content in
    emit (EvRequest MODEL prompt) ;;
    match f_respond f prompt with
    | Returns output_text => ret (strip output_text)
    | Raises e => ret (SUMMARY_ERROR ++ exn_str e ++ CLOSE)
    end
  end.

(** Lines 28 to 32 of [load_ignore_patterns]: the patterns read from the
    lines of [ignore.txt]. *)
Definition patterns_of_lines (lines : list str) : list str :=
  filter (fun line =>
            negb (match line with [] => true | _ :: _ => false end
                  || startswith line (py "#")))
    (map strip lines).

(** [any(fnmatch.fnmatch(name, pat) for pat in ignore_patterns)] *)
Definition ignored (pf : platform) (ignore_patterns : list str) (name : str)
  : bool :=
  existsb (fun pat => Fnmatch.fnmatch pf name pat) ignore_patterns.

(** Lines 68 to 80: the sorted listing without the ignored names.  An
    empty pattern list is falsy and skips the filter. *)
Definition surviving (pf : platform) (ignore_patterns : list str)
  (listing : list str) : list str :=
  let entries := sorted listing in
  match ignore_patterns with
  | [] => entries
  | _ :: _ => filter (fun name => negb (ignored pf ignore_patterns name)) entries
  end.

(** [index == len(entries) - 1] *)
Definition is_last_of (n_entries index : nat) : bool :=
  Nat.eqb index (n_entries - 1).

Definition branch_of (is_last : bool) : str :=
  if is_last then BRANCH_LAST else BRANCH_MID.

Definition indent_of (is_last : bool) : str :=
  if is_last then INDENT_LAST else INDENT_MID.

(** The lines printed for a file: the first carries the name, the others
    are the rest of the wrapped summary. *)
Definition file_block (prefix branch name : str) (lines : list str) : M unit :=
  emit (EvPrint (prefix ++ branch ++ name ++ DASH_SEP ++ hd [] lines)) ;;
  for_each
    (fun _ line =>
       emit (EvPrint (prefix ++ spaces (length branch) ++ TWO_SPACES ++ line)))
    0 (tl lines).

(** The body of the loop of [print_tree] (lines 83 to 97). *)
Definition visit_entry (pf : platform) (path prefix : str)
  (n_entries index : nat) (name : str) (r : str -> resolved) : M unit :=
  let full := path_join pf path name in
  let is_last := is_last_of n_entries index in
  let branch := branch_of is_last in
  emit (EvIsdir full) ;;
  match r full with
  | RDir walk =>
    emit (EvPrint (prefix ++ branch ++ name ++ SLASH)) ;;
    let new_prefix := prefix ++ indent_of is_last in
    walk full new_prefix
  | RFile f =>
    summary <- summarize_file full 5000 f ;;
    let wrapped := Textwrap.fill pf 60 summary in
    let lines := split LF wrapped in
    file_block prefix branch name lines
  end.

(** [print_tree(path, prefix, ignore_patterns)], on the directory [d] that
    [path] names.  [table] holds what each name of the listing resolves
    to; the recursive calls stand in it, under the entries they are
    called on, which is how the recursion follows the tree.  The names
    the loop visits come from the listing, so each is found in it. *)
Fixpoint print_tree (pf : platform) (path prefix : str)
  (ignore_patterns : list str) (d : dir) {struct d} : M unit :=
  emit (EvListdir path) ;;
  match d with
  | NoList e =>
    if is_PermissionError e
    then emit (EvPrint (prefix ++ NO_ACCESS ++ path ++ CLOSE))
    else raise e
  | Listed es =>
    let entries := surviving pf ignore_patterns (map fst es) in
    let table :=
      map (fun ne =>
             (fst ne,
              match snd ne with
              | IsFile f => RFile f
              | IsDir d' =>
                RDir (fun full new_prefix =>
                        print_tree pf full new_prefix ignore_patterns d')
              end)) es in
    for_each
      (fun index name =>
         visit_entry pf path prefix (length entries) index name
           (fun full => match lookup name table with
                        | Some r => r
                        | None => RFile (vanished full)
                        end))
      0 entries
  end.

(* ================================================================= *)
(** ** Notions the properties are stated with *)

(** What the loop body gets for [name] in the listing [es]: the table
    [print_tree] builds, read off the listing itself. *)
Definition resolve (pf : platform) (ignore_patterns : list str)
  (es : list (str * entry)) (name full : str) : resolved :=
  match lookup name es with
  | Some (IsFile f) => RFile f
  | Some (IsDir d') =>
    RDir (fun full' new_prefix =>
            print_tree pf full' new_prefix ignore_patterns d')
  | None => RFile (vanished full)
  end.

(** The summary text [summarize_file] returns for a file. *)
Definition summary_of (path : str) (f : file_obj) : str :=
  match result (summarize_file path 5000 f) with
  | Returns s => s
  | Raises _ => []
  end.

(** The wrapped summary as [print_tree] splits it into lines. *)
Definition summary_lines (pf : platform) (summary : str) : list str :=
  split LF (Textwrap.fill pf 60 summary).

(** [w] occurs in [line] in one piece. *)
Definition infix (w line : str) : Prop := exists a b, line = a ++ w ++ b.

(** The glob rules as the specification words them: [*] is any run of
    characters, [?] is any one character, every other character stands
    for itself, with no special case for letter case or for the path
    separator. *)
Fixpoint glob_spec (pat name : str) : bool :=
  match pat with
  | [] => match name with [] => true | _ :: _ => false end
  | p :: pat' =>
    if (p =? Fnmatch.c_star)%N then
      (fix star (s : str) : bool :=
         glob_spec pat' s ||
         match s with
         | [] => false
         | _ :: s' => star s'
         end) name
    else
      match name with
      | [] => false
      | x :: name' =>
        ((p =? Fnmatch.c_qmark)%N || (p =? x)%N) && glob_spec pat' name'
      end
  end.

(** [isExcluded(name, ruleSet)] as the specification words it. *)
Definition isExcluded_spec (name : str) (rule_set : list str) : bool :=
  existsb (fun pat => glob_spec pat name) rule_set.

(** The tree without the entries whose names are ignored, at every depth. *)
Fixpoint prune (pf : platform) (ignore_patterns : list str) (d : dir) : dir :=
  match d with
  | NoList e => NoList e
  | Listed es =>
    Listed
      (filter (fun ne => negb (ignored pf ignore_patterns (fst ne)))
         (map (fun ne =>
                 (fst ne,
                  match snd ne with
                  | IsFile f => IsFile f
                  | IsDir d' => IsDir (prune pf ignore_patterns d')
                  end)) es))
  end.

(** No entry of the tree, at any depth, has an ignored name. *)
Fixpoint unignored (pf : platform) (ignore_patterns : list str) (d : dir)
  : Prop :=
  match d with
  | NoList _ => True
  | Listed es =>
    (fix all (l : list (str * entry)) : Prop :=
       match l with
       | [] => True
       | ne :: l' =>
         ignored pf ignore_patterns (fst ne) = false
         /\ match snd ne with
            | IsFile _ => True
            | IsDir d' => unignored pf ignore_patterns d'
            end
         /\ all l'
       end) es
  end.

Fixpoint first_some {A} (l : list (option A)) : option A :=
  match l with
  | [] => None
  | Some a :: _ => Some a
  | None :: l' => first_some l'
  end.

(** The first directory, in the order of the walk and among those that
    are not ignored, whose listing fails with something other than a
    permission error; files play no part. *)
Fixpoint crash (pf : platform) (ignore_patterns : list str) (d : dir)
  : option exn :=
  match d with
  | NoList e => if is_PermissionError e then None else Some e
  | Listed es =>
    let table :=
      map (fun ne =>
             (fst ne,
              match snd ne with
              | IsFile _ => None
              | IsDir d' => crash pf ignore_patterns d'
              end)) es in
    first_some
      (map (fun name => match lookup name table with
                        | Some c => c
                        | None => None
                        end)
         (surviving pf ignore_patterns (map fst es)))
  end.

(** The events of a trace that open a file. *)
Definition is_open (ev : event) : bool :=
  match ev with EvOpenRead _ _ _ _ _ => true | _ => false end.

Definition is_request (ev : event) : bool :=
  match ev with EvRequest _ _ => true | _ => false end.

(** [enumerate(l, start)] *)
Definition enumerate {A} (start : nat) (l : list A) : list (nat * A) :=
  combine (seq start (length l)) l.

(* ================================================================= *)
(** ** Auxiliary notions and sample inputs *)

(** [a <= b] *)
Definition str_le (a b : str) : Prop := str_ltb b a = false.

(** The event of [summarize_file] opening and reading [path]. *)
Definition open_event (path : str) : event :=
  EvOpenRead path (py "r") (py "utf-8") None 5000.

(** A line of a summary after its first, as line 97 prints it. *)
Definition continuation (prefix branch line : str) : str :=
  prefix ++ spaces (length branch) ++ TWO_SPACES ++ line.

(** A file whose read gives [content] and whose summary is [answer]. *)
Definition plain_file (content answer : str) : file_obj :=
  {| f_read := fun n => Returns (firstn n content);
     f_respond := fun _ => Returns answer |}.

(** A file that cannot be read. *)
Definition unreadable_file (e : exn) : file_obj :=
  {| f_read := fun _ => Raises e; f_respond := fun _ => Returns [] |}.

(** [a.txt] and the directory [b] with [c.txt] in it, listed out of order. *)
Definition sample_tree : dir :=
  Listed
    [ (py "b", IsDir (Listed [(py "c.txt", IsFile (plain_file (py "x") (py "about c")))]));
      (py "a.txt", IsFile (plain_file (py "hello") (py "about a"))) ].

(** A word of 61 letters. *)
Definition long_word : str := repeat 97%N 61.

(** One file whose summary wraps to two lines. *)
Definition long_summary_tree : dir :=
  Listed [(py "a.txt", IsFile (plain_file (py "hello") long_word))].

(** How a run ends given the exception that stops it, if any. *)
Definition ending (c : option exn) : outcome unit :=
  match c with Some e => Raises e | None => Returns tt end.

(** Sample exceptions. *)
Definition denied : exn :=
  {| exn_class := PermissionError; exn_str := py "denied" |}.

Definition gone : exn :=
  {| exn_class := FileNotFoundError;
     exn_str := py "[Errno 2] No such file or directory: '/r/m'" |}.

(** [m] disappears between its discovery and its listing; [a.txt] comes
    before it and [z.txt] after it. *)
Definition vanishing_tree : dir :=
  Listed [ (py "a.txt", IsFile (plain_file (py "x") (py "fine")));
           (py "m", IsDir (NoList gone));
           (py "z.txt", IsFile (plain_file (py "y") (py "never shown"))) ].

(** [m] may not be listed; [a.txt] comes before it and [z.txt] after it. *)
Definition locked_tree : dir :=
  Listed [ (py "a.txt", IsFile (plain_file (py "x") (py "fine")));
           (py "m", IsDir (NoList denied));
           (py "z.txt", IsFile (plain_file (py "y") (py "shown"))) ].

(** The call is [open(path, 'r', encoding='utf-8')] with no [errors]
    argument, followed by [read(5000)]. *)
Definition utf8_text_open (ev : event) : Prop :=
  match ev with
  | EvOpenRead _ mode encoding errors max_chars =>
    mode = py "r" /\ encoding = py "utf-8" /\ errors = None /\ max_chars = 5000
  | _ => True
  end.

Definition bad_bytes : exn :=
  {| exn_class := UnicodeDecodeError;
     exn_str := py "'utf-8' codec can't decode byte 0xff in position 0: invalid start byte" |}.

(** The two functions [prune] is made of. *)
Definition kept (pf : platform) (pats : list str) (ne : str * entry) : bool :=
  negb (ignored pf pats (fst ne)).

Definition prune_entry (pf : platform) (pats : list str) (en : entry) : entry :=
  match en with
  | IsFile f => IsFile f
  | IsDir d' => IsDir (prune pf pats d')
  end.

(** [f] holds of some suffix of [s]. *)
Fixpoint star_closure (f : str -> bool) (s : str) : bool :=
  f s || match s with
         | [] => false
         | _ :: s' => star_closure f s'
         end.

(** What is left to wrap: the characters and the chunks. *)
Definition load (chunks : list str) : nat :=
  length (concat chunks) + length chunks.

(** [w] is a word between white space in which nothing invites a break. *)
Definition plain_word (w : str) : Prop :=
  w <> [] /\ Forall (fun c => Textwrap.is_ws c = false) w /\ ~ In HYPHEN w.

(** [b] is empty or starts with white space; [a] is empty or ends with it. *)
Definition starts_ws (b : str) : Prop :=
  b = [] \/ exists c b', b = c :: b' /\ Textwrap.is_ws c = true.

Definition ends_ws (a : str) : Prop :=
  a = [] \/ exists a' c, a = a' ++ [c] /\ Textwrap.is_ws c = true.

(* ================================================================= *)
(** ** Induction on directory trees *)

(** The tree is nested in a list, so the induction principle is written
    by hand: a property holds of every directory when it holds of those
    that cannot be listed and passes from the directories of a listing
    to the listing. *)

Section DirInduction.

Variable P : dir -> Prop.
Hypothesis P_NoList : forall e, P (NoList e).
Hypothesis P_Listed :
  forall es,
    (forall name d', In (name, IsDir d') es -> P d') -> P (Listed es).

Fixpoint dir_tree_ind (d : dir) : P d :=
  match d with
  | NoList e => P_NoList e
  | Listed es =>
    P_Listed es
      ((fix go (l : list (str * entry))
          : forall name d', In (name, IsDir d') l -> P d' :=
          match l with
          | [] => fun _ _ H => match H with end
          | (n0, en) :: l' =>
            fun name d' H =>
              match H with
              | or_introl Heq =>
                match en as en0
                      return (n0, en0) = (name, IsDir d') -> P d' with
                | IsFile _ => fun Heq' =>
                    match eq_ind (IsFile _) (fun x => match x with
                                                      | IsFile _ => True
                                                      | IsDir _ => False
                                                      end) I _
                                 (f_equal snd Heq') with end
                | IsDir d0 => fun Heq' =>
                    eq_ind d0 P (dir_tree_ind d0) d'
                      (f_equal (fun p => match snd p with
                                         | IsDir x => x
                                         | IsFile _ => d0
                                         end) Heq')
                end Heq
              | or_intror Hin => go l' name d' Hin
              end
          end) es)
  end.

End DirInduction.

(* ================================================================= *)
(** ** The rest of the program: [load_ignore_patterns] and [main] *)

(** The file [ignore.txt] of the root directory as [load_ignore_patterns]
    meets it: [os.path.isfile] is false, or it is true and the iteration
    over the opened file gives [lines] (each with its line end) and then
    stops, at the end of the file or with the exception [failure].  An
    [open] that fails is no line and an exception. *)
Inductive ignore_file :=
| NoIgnoreFile
| IgnoreFile (lines : list str) (failure : option exn).

(** The events of a whole run: those of the walk and those of the
    reading of the ignore file. *)
Inductive run_event :=
| EvIsfile (path : str)                    (* [os.path.isfile(path)] *)
| EvOpenLines (path mode encoding : str)
    (* [open(path, mode, encoding=encoding)] and [for line in f] *)
| Ev (ev : event).                         (* an event as in [print_tree] *)

Definition IGNORE_ERROR : str := Eval vm_compute in py "[IGNORE 読み取りエラー: ".
Definition IGNORE_TXT : str := Eval vm_compute in py "ignore.txt".
Definition HEADER : str := Eval vm_compute in py "# Tree summary of: ".
Definition IGNORING : str := Eval vm_compute in py "# Ignoring patterns from ".
Definition COLON_SP : str := Eval vm_compute in py ": ".

(** [load_ignore_patterns(root)]: its events and the list it returns.
    The [except] clause prints and falls through to [return patterns],
    so the function always returns. *)
Definition load_ignore_patterns (pf : platform) (root : str) (f : ignore_file)
  : list run_event * list str :=
  let ignore_path := path_join pf root IGNORE_TXT in
  match f with
  | NoIgnoreFile => ([EvIsfile ignore_path], [])
  | IgnoreFile lines failure =>
    let patterns := patterns_of_lines lines in
    (EvIsfile ignore_path
       :: EvOpenLines ignore_path (py "r") (py "utf-8")
       :: match failure with
          | Some e => [Ev (EvPrint (IGNORE_ERROR ++ exn_str e ++ CLOSE))]
          | None => []
          end,
     patterns)
  end.

(** What [main] takes from the interpreter besides the platform:
    [os.path.abspath] and the text of a list of strings in an f-string
    ([str] of the list). *)
Record interpreter := {
  abspath : str -> str;
  str_of_list : list str -> str
}.

(** [main()], from the parsed argument [arg_root] ([args.root], "." when
    none is given) on: the events of the run and how it ends. *)
Definition main (pf : platform) (it : interpreter) (arg_root : str)
  (f : ignore_file) (d : dir) : list run_event * outcome unit :=
  let root := abspath it arg_root in
  let '(loading, ignore_patterns) := load_ignore_patterns pf root f in
  let header := Ev (EvPrint (HEADER ++ root)) in
  let note :=
    match ignore_patterns with
    | [] => []
    | _ :: _ =>
      [Ev (EvPrint (IGNORING ++ path_join pf root IGNORE_TXT ++ COLON_SP
                    ++ str_of_list it ignore_patterns))]
    end in
  let walk := print_tree pf root [] ignore_patterns d in
  (loading ++ header :: note ++ map Ev (trace walk), result walk).

(** The lines a run prints. *)
Fixpoint run_printed (t : list run_event) : list str :=
  match t with
  | [] => []
  | Ev (EvPrint line) :: t' => line :: run_printed t'
  | _ :: t' => run_printed t'
  end.

(** [str] of a list of strings none of which has a quote, a backslash or
    a character that [repr] escapes. *)
Fixpoint plain_items (l : list str) : str :=
  match l with
  | [] => []
  | [s] => py "'" ++ s ++ py "'"
  | s :: rest => py "'" ++ s ++ py "', " ++ plain_items rest
  end.

Definition plain_repr (l : list str) : str := py "[" ++ plain_items l ++ py "]".

(** An interpreter for the concrete instances: exact on absolute
    normalized paths and on lists of plain strings. *)
Definition sample_interpreter : interpreter :=
  {| abspath := fun p => p; str_of_list := plain_repr |}.

(** ** Further notions *)

(** The characters of a text that are not white space. *)
Definition visible (s : str) : str := filter (fun c => negb (isspace c)) s.

(** The path an event touches. *)
Definition event_path (ev : event) : option str :=
  match ev with
  | EvListdir p => Some p
  | EvIsdir p => Some p
  | EvOpenRead p _ _ _ _ => Some p
  | _ => None
  end.

(** The event touches nothing outside [root]. *)
Definition within (root : str) (ev : event) : Prop :=
  match event_path ev with
  | Some p => startswith p root = true
  | None => True
  end.

(** No name of the tree starts with the path separator ([os.listdir]
    gives names, not paths). *)
Fixpoint well_named (d : dir) : Prop :=
  match d with
  | NoList _ => True
  | Listed es =>
    (fix all (l : list (str * entry)) : Prop :=
       match l with
       | [] => True
       | ne :: l' =>
         startswith (fst ne) SLASH = false
         /\ match snd ne with
            | IsFile _ => True
            | IsDir d' => well_named d'
            end
         /\ all l'
       end) es
  end.

(** How often an event of a kind occurs in a trace. *)
Definition count (p : event -> bool) (t : list event) : nat :=
  length (filter p t).

(** Every request of the trace comes straight after the opening and
    reading of a file; [after_open] tells whether the event before [t]
    was one. *)
Fixpoint requests_follow_reads (after_open : bool) (t : list event) : bool :=
  match t with
  | [] => true
  | ev :: t' =>
    (if is_request ev then after_open else true)
    && requests_follow_reads (is_open ev) t'
  end.

(** A pattern in which every character stands for itself. *)
Definition literal (pat : str) : Prop :=
  ~ In Fnmatch.c_star pat /\ ~ In Fnmatch.c_qmark pat
  /\ ~ In Fnmatch.c_lbrack pat.

(** A line of [ignore.txt] that yields no pattern: blank, or a comment. *)
Definition no_pattern (line : str) : Prop :=
  strip line = [] \/ startswith (strip line) (py "#") = true.

(* ================================================================= *)
(** * Properties *)


(** ** The effect monad and the loop *)

Lemma surjective_M {A} (m : M A) : m = (trace m, result m).
Proof. destruct m; reflexivity. Qed.

Lemma bind_returns {A B} (m : M A) (k : A -> M B) a :
  result m = Returns a ->
  bind m k = (trace m ++ trace (k a), result (k a)).
Proof.
  destruct m as [t r]; simpl; intros ->.
  destruct (k a); reflexivity.
Qed.

Lemma bind_raises {A B} (m : M A) (k : A -> M B) e :
  result m = Raises e -> bind m k = (trace m, Raises e).
Proof. destruct m as [t r]; simpl; intros ->; reflexivity. Qed.

Lemma bind_emit {B} ev (k : unit -> M B) :
  bind (emit ev) k = (ev :: trace (k tt), result (k tt)).
Proof. unfold emit; simpl. destruct (k tt); reflexivity. Qed.

Lemma bind_ext {A B} (m : M A) (k1 k2 : A -> M B) :
  (forall a, k1 a = k2 a) -> bind m k1 = bind m k2.
Proof.
  intros H. destruct m as [t [a|e]]; simpl; [rewrite H|]; reflexivity.
Qed.

Lemma printed_app t1 t2 : printed (t1 ++ t2) = printed t1 ++ printed t2.
Proof.
  induction t1 as [|ev t1 IH]; simpl; [reflexivity|].
  destruct ev; simpl; rewrite IH; reflexivity.
Qed.

Lemma for_each_ext {A} (f g : nat -> A -> M unit) i l :
  (forall j x, In x l -> f j x = g j x) ->
  for_each f i l = for_each g i l.
Proof.
  revert i; induction l as [|x l IH]; intros i H; simpl; [reflexivity|].
  rewrite (H i x (or_introl eq_refl)).
  apply bind_ext; intros _. apply IH. intros j y Hy. apply H; right; exact Hy.
Qed.

(** A loop whose body always returns returns, and its trace is the
    traces of the bodies one after the other. *)
Lemma for_each_returns {A} (body : nat -> A -> M unit) i l :
  (forall j x, In x l -> result (body j x) = Returns tt) ->
  for_each body i l
  = (concat (map (fun p => trace (body (fst p) (snd p))) (enumerate i l)),
     Returns tt).
Proof.
  revert i; induction l as [|x l IH]; intros i H; [reflexivity|].
  simpl for_each.
  rewrite (bind_returns _ _ tt) by (apply H; left; reflexivity).
  rewrite IH by (intros j y Hy; apply H; right; exact Hy).
  reflexivity.
Qed.

(** In general the loop runs the bodies of a prefix of the list and stops
    at the first that raises. *)
Lemma for_each_trace {A} (body : nat -> A -> M unit) i l :
  exists k,
    k <= length l
    /\ trace (for_each body i l)
       = concat (map (fun p => trace (body (fst p) (snd p)))
                   (firstn k (enumerate i l)))
    /\ (result (for_each body i l) = Returns tt -> k = length l)
    /\ (forall e, result (for_each body i l) = Raises e ->
        exists x, nth_error l (k - 1) = Some x /\ 0 < k
                  /\ result (body (i + (k - 1)) x) = Raises e).
Proof.
  revert i; induction l as [|x l IH]; intros i.
  - exists 0; simpl; repeat split; auto. intros e H; discriminate.
  - simpl for_each. destruct (result (body i x)) as [[]|e] eqn:Hr.
    + rewrite (bind_returns _ _ tt Hr).
      destruct (IH (S i)) as (k & Hk & Ht & Hret & Hraise).
      exists (S k); simpl; repeat split.
      * lia.
      * unfold enumerate in *; simpl. rewrite Ht. reflexivity.
      * intros H. rewrite Hret by exact H. reflexivity.
      * intros e H. destruct (Hraise e H) as (y & Hy & Hpos & Hres).
        exists y. replace (k - 0) with k by lia.
        destruct k as [|k]; [lia|]. simpl in *.
        replace (k - 0) with k in * by lia.
        repeat split; auto; try lia.
        replace (i + S k) with (S i + k) by lia. exact Hres.
    + rewrite (bind_raises _ _ e Hr).
      exists 1; simpl; repeat split.
      * lia.
      * rewrite app_nil_r. reflexivity.
      * intros H; discriminate.
      * intros e' H. exists x. replace (i + 0) with i by lia.
        repeat split; auto. rewrite Hr. exact H.
Qed.

(** ** Unfolding [print_tree] *)

Lemma lookup_map {A B} (g : A -> B) name (l : list (str * A)) :
  lookup name (map (fun ne => (fst ne, g (snd ne))) l)
  = option_map g (lookup name l).
Proof.
  induction l as [|[k v] l IH]; simpl; [reflexivity|].
  destruct (str_eqb k name); [reflexivity|exact IH].
Qed.

Lemma visit_entry_ext pf path prefix n i name (r1 r2 : str -> resolved) :
  r1 (path_join pf path name) = r2 (path_join pf path name) ->
  visit_entry pf path prefix n i name r1
  = visit_entry pf path prefix n i name r2.
Proof. unfold visit_entry; intros ->; reflexivity. Qed.

Lemma print_tree_NoList pf path prefix pats e :
  print_tree pf path prefix pats (NoList e)
  = emit (EvListdir path) ;;
    if is_PermissionError e
    then emit (EvPrint (prefix ++ NO_ACCESS ++ path ++ CLOSE))
    else raise e.
Proof. reflexivity. Qed.

Lemma print_tree_Listed pf path prefix pats es :
  print_tree pf path prefix pats (Listed es)
  = emit (EvListdir path) ;;
    for_each
      (fun index name =>
         visit_entry pf path prefix
           (length (surviving pf pats (map fst es))) index name
           (resolve pf pats es name))
      0 (surviving pf pats (map fst es)).
Proof.
  cbn [print_tree]. apply bind_ext; intros _.
  apply for_each_ext; intros j name _.
  apply visit_entry_ext. unfold resolve.
  rewrite (lookup_map
             (fun en => match en with
                        | IsFile f => RFile f
                        | IsDir d' =>
                          RDir (fun full new_prefix =>
                                  print_tree pf full new_prefix pats d')
                        end)).
  destruct (lookup name es) as [[f|d']|]; reflexivity.
Qed.

(** ** Order and sorting of names *)

Lemma str_ltb_irrefl a : str_ltb a a = false.
Proof.
  induction a as [|x a IH]; simpl; [reflexivity|].
  rewrite N.ltb_irrefl. exact IH.
Qed.

Lemma str_ltb_trans a b c :
  str_ltb a b = true -> str_ltb b c = true -> str_ltb a c = true.
Proof.
  revert b c; induction a as [|x a IH]; intros [|y b] [|z c]; simpl;
    try discriminate; auto.
  destruct (N.ltb_spec x y), (N.ltb_spec y x), (N.ltb_spec y z),
    (N.ltb_spec z y), (N.ltb_spec x z), (N.ltb_spec z x);
    try discriminate; try lia; auto.
  apply IH.
Qed.

Lemma str_ltb_trichotomy a b :
  str_ltb a b = true \/ a = b \/ str_ltb b a = true.
Proof.
  revert b; induction a as [|x a IH]; intros [|y b]; simpl; auto.
  destruct (N.ltb_spec x y), (N.ltb_spec y x); auto; try lia.
  assert (x = y) by lia; subst y.
  destruct (IH b) as [H1|[H1|H1]]; auto. subst; auto.
Qed.

Lemma str_ltb_asym a b : str_ltb a b = true -> str_ltb b a = false.
Proof.
  intros H. destruct (str_ltb b a) eqn:E; [|reflexivity].
  pose proof (str_ltb_trans _ _ _ H E) as C.
  rewrite str_ltb_irrefl in C; discriminate.
Qed.

Lemma str_le_trans a b c : str_le a b -> str_le b c -> str_le a c.
Proof.
  unfold str_le; intros H1 H2.
  destruct (str_ltb c a) eqn:E; [|reflexivity].
  destruct (str_ltb_trichotomy a b) as [H|[H|H]].
  - rewrite (str_ltb_trans _ _ _ E H) in H2; discriminate.
  - subst b. rewrite E in H2; discriminate.
  - rewrite H in H1; discriminate.
Qed.

Lemma insert_sorted_perm x l : Permutation (x :: l) (insert_sorted x l).
Proof.
  induction l as [|y l IH]; simpl; [reflexivity|].
  destruct (str_ltb y x); [|reflexivity].
  rewrite perm_swap. constructor. exact IH.
Qed.

Lemma sorted_perm l : Permutation l (sorted l).
Proof.
  induction l as [|x l IH]; simpl; [constructor|].
  rewrite <- insert_sorted_perm. constructor. exact IH.
Qed.

Lemma insert_sorted_ascending x l :
  StronglySorted str_le l -> StronglySorted str_le (insert_sorted x l).
Proof.
  induction 1 as [|y l Hs IH Hall]; simpl.
  - repeat constructor.
  - destruct (str_ltb y x) eqn:E.
    + constructor; [exact IH|].
      rewrite <- insert_sorted_perm. constructor; [|exact Hall].
      unfold str_le. apply str_ltb_asym. exact E.
    + constructor; [constructor; assumption|].
      constructor; [exact E|].
      eapply Forall_impl; [|exact Hall].
      intros z Hz. eapply str_le_trans; [exact E|exact Hz].
Qed.

Lemma sorted_ascending l : StronglySorted str_le (sorted l).
Proof.
  induction l as [|x l IH]; simpl; [constructor|].
  apply insert_sorted_ascending. exact IH.
Qed.

(** Without repeated names the order is strict. *)
Lemma ascending_strict l :
  NoDup l -> StronglySorted str_le l -> StronglySorted str_lt l.
Proof.
  induction 2 as [|x l Hs IH Hall]; [constructor|].
  inversion H as [|? ? Hnin Hnd]; subst.
  constructor; [apply IH; exact Hnd|].
  rewrite Forall_forall in *. intros y Hy.
  destruct (str_ltb_trichotomy x y) as [Hlt|[Heq|Hgt]].
  - exact Hlt.
  - subst y. contradiction.
  - specialize (Hall y Hy). unfold str_le in Hall. congruence.
Qed.

Lemma filter_strongly_sorted {A} (R : A -> A -> Prop) p l :
  StronglySorted R l -> StronglySorted R (filter p l).
Proof.
  induction 1 as [|x l Hs IH Hall]; simpl; [constructor|].
  destruct (p x); [|exact IH].
  constructor; [exact IH|].
  rewrite Forall_forall in *. intros y Hy.
  apply filter_In in Hy. apply Hall. tauto.
Qed.

Lemma surviving_in pf pats listing name :
  In name (surviving pf pats listing)
  <-> In name listing /\ ignored pf pats name = false.
Proof.
  unfold surviving. destruct pats as [|p pats].
  - simpl. split.
    + intros H. split; [|reflexivity].
      eapply Permutation_in; [symmetry; apply sorted_perm|exact H].
    + intros [H _]. eapply Permutation_in; [apply sorted_perm|exact H].
  - rewrite filter_In. rewrite negb_true_iff.
    split; intros [H1 H2]; split; auto.
    + eapply Permutation_in; [symmetry; apply sorted_perm|exact H1].
    + eapply Permutation_in; [apply sorted_perm|exact H1].
Qed.

Lemma surviving_strict pf pats listing :
  NoDup listing -> StronglySorted str_lt (surviving pf pats listing).
Proof.
  intros Hnd.
  assert (Hs : StronglySorted str_lt (sorted listing)).
  { apply ascending_strict; [|apply sorted_ascending].
    eapply Permutation_NoDup; [apply sorted_perm|exact Hnd]. }
  unfold surviving. destruct pats; [exact Hs|].
  apply filter_strongly_sorted. exact Hs.
Qed.

(** ** What one visit does *)

Lemma summarize_file_cases path f :
  summarize_file path 5000 f
  = match f_read f 5000 with
    | Raises e => ([open_event path], Returns (READ_ERROR ++ exn_str e ++ CLOSE))
    | Returns content =>
      match f_respond f (prompt_of content) with
      | Returns output_text =>
        ([open_event path; EvRequest MODEL (prompt_of content)],
         Returns (strip output_text))
      | Raises e =>
        ([open_event path; EvRequest MODEL (prompt_of content)],
         Returns (SUMMARY_ERROR ++ exn_str e ++ CLOSE))
      end
    end.
Proof.
  unfold summarize_file. rewrite bind_emit.
  destruct (f_read f 5000) as [content|e]; [|reflexivity].
  rewrite bind_emit.
  destruct (f_respond f (prompt_of content)); reflexivity.
Qed.

Lemma summarize_file_returns path f :
  result (summarize_file path 5000 f) = Returns (summary_of path f).
Proof.
  unfold summary_of. rewrite summarize_file_cases.
  destruct (f_read f 5000) as [content|e]; [|reflexivity].
  destruct (f_respond f (prompt_of content)); reflexivity.
Qed.

Lemma summarize_file_prints_nothing path f :
  printed (trace (summarize_file path 5000 f)) = [].
Proof.
  rewrite summarize_file_cases.
  destruct (f_read f 5000) as [content|e]; [|reflexivity].
  destruct (f_respond f (prompt_of content)); reflexivity.
Qed.

Lemma file_block_run prefix branch name lines :
  file_block prefix branch name lines
  = (EvPrint (prefix ++ branch ++ name ++ DASH_SEP ++ hd [] lines)
       :: map (fun line => EvPrint (continuation prefix branch line)) (tl lines),
     Returns tt).
Proof.
  unfold file_block. rewrite bind_emit.
  rewrite for_each_returns by reflexivity.
  simpl. f_equal. f_equal.
  unfold enumerate. generalize 0.
  induction (tl lines) as [|l ls IH]; intros n; simpl; [reflexivity|].
  rewrite IH. reflexivity.
Qed.

Lemma printed_prints (ls : list str) : printed (map EvPrint ls) = ls.
Proof. induction ls as [|l ls IH]; simpl; [|rewrite IH]; reflexivity. Qed.

Lemma visit_file pf path prefix n i name r f :
  r (path_join pf path name) = RFile f ->
  let full := path_join pf path name in
  let branch := branch_of (is_last_of n i) in
  visit_entry pf path prefix n i name r
  = (EvIsdir full
       :: trace (summarize_file full 5000 f)
       ++ trace (file_block prefix branch name
                   (summary_lines pf (summary_of full f))),
     Returns tt).
Proof.
  intros Hr full branch. unfold visit_entry. rewrite bind_emit.
  rewrite Hr. fold full.
  rewrite (bind_returns _ _ _ (summarize_file_returns full f)).
  cbn [trace result fst snd].
  assert (Hres : forall b ls, result (file_block prefix b name ls) = Returns tt)
    by (intros; rewrite file_block_run; reflexivity).
  rewrite Hres. reflexivity.
Qed.

Lemma visit_dir pf path prefix n i name r walk :
  r (path_join pf path name) = RDir walk ->
  let full := path_join pf path name in
  let is_last := is_last_of n i in
  visit_entry pf path prefix n i name r
  = (EvIsdir full
       :: EvPrint (prefix ++ branch_of is_last ++ name ++ SLASH)
       :: trace (walk full (prefix ++ indent_of is_last)),
     result (walk full (prefix ++ indent_of is_last))).
Proof.
  intros Hr full is_last. unfold visit_entry. rewrite bind_emit.
  rewrite Hr. rewrite bind_emit. reflexivity.
Qed.

(** The first line a visit prints names the entry after the prefix and
    the glyph of its position. *)
Lemma visit_headline pf path prefix n i name r :
  exists sfx more,
    printed (trace (visit_entry pf path prefix n i name r))
    = (prefix ++ branch_of (is_last_of n i) ++ name ++ sfx) :: more.
Proof.
  destruct (r (path_join pf path name)) as [f|walk] eqn:Hr.
  - rewrite (visit_file _ _ _ _ _ _ _ _ Hr). cbn [trace fst printed].
    rewrite printed_app, summarize_file_prints_nothing, file_block_run.
    cbn [trace fst printed app]. eauto.
  - rewrite (visit_dir _ _ _ _ _ _ _ _ Hr). cbn [trace fst printed]. eauto.
Qed.

Lemma last_flag_unique n :
  0 < n -> exists! i, i < n /\ is_last_of n i = true.
Proof.
  intros Hn. exists (n - 1). unfold is_last_of. split.
  - split; [lia|apply Nat.eqb_refl].
  - intros j [_ Hj]. apply Nat.eqb_eq in Hj. congruence.
Qed.

Lemma print_tree_level pf path prefix pats es :
  let entries := surviving pf pats (map fst es) in
  exists k,
    k <= length entries
    /\ trace (print_tree pf path prefix pats (Listed es))
       = EvListdir path
           :: concat
                (map (fun p =>
                        trace (visit_entry pf path prefix (length entries)
                                 (fst p) (snd p) (resolve pf pats es (snd p))))
                   (firstn k (enumerate 0 entries)))
    /\ (result (print_tree pf path prefix pats (Listed es)) = Returns tt ->
        k = length entries).
Proof.
  intros entries. rewrite print_tree_Listed, bind_emit. fold entries.
  destruct (for_each_trace
              (fun index name =>
                 visit_entry pf path prefix (length entries) index name
                   (resolve pf pats es name)) 0 entries)
    as (k & Hk & Ht & Hret & _).
  exists k. cbn [trace result fst snd]. repeat split; auto.
  f_equal. exact Ht.
Qed.

(** ** Layout of the lines of a file *)

Lemma branch_length b : length (branch_of b) = 4.
Proof. destruct b; reflexivity. Qed.

(** ** Prefixes of the printed lines *)

Lemma startswith_app p x : startswith (p ++ x) p = true.
Proof.
  induction p as [|c p IH]; simpl; [destruct x; reflexivity|].
  rewrite N.eqb_refl. exact IH.
Qed.

Lemma startswith_app_l l p q :
  startswith l (p ++ q) = true -> startswith l p = true.
Proof.
  revert l; induction p as [|c p IH]; intros l H; simpl in *.
  - destruct l; reflexivity.
  - destruct l as [|y l]; [discriminate|].
    apply andb_true_iff in H as [H1 H2].
    apply andb_true_iff. split; [exact H1|apply IH; exact H2].
Qed.

Lemma str_eqb_eq a b : str_eqb a b = true -> a = b.
Proof. unfold str_eqb. destruct (list_eq_dec N.eq_dec a b); [auto|discriminate]. Qed.

Lemma str_eqb_refl a : str_eqb a a = true.
Proof. unfold str_eqb. destruct (list_eq_dec N.eq_dec a a); [auto|contradiction]. Qed.

Lemma lookup_In {A} name (l : list (str * A)) v :
  lookup name l = Some v -> In (name, v) l.
Proof.
  induction l as [|[k w] l IH]; simpl; [discriminate|].
  destruct (str_eqb k name) eqn:E.
  - intros [= ->]. left. apply str_eqb_eq in E. subst. reflexivity.
  - intros H. right. apply IH. exact H.
Qed.

(** Every line [print_tree] prints starts with the prefix it was given. *)
Lemma print_tree_lines_prefixed pf pats d :
  forall path prefix,
    Forall (fun line => startswith line prefix = true)
      (printed (trace (print_tree pf path prefix pats d))).
Proof.
  induction d as [e|es IH] using dir_tree_ind; intros path prefix.
  - rewrite print_tree_NoList, bind_emit.
    destruct (is_PermissionError e); cbn [trace fst printed emit raise].
    + constructor; [apply startswith_app|constructor].
    + constructor.
  - destruct (print_tree_level pf path prefix pats es) as (k & _ & Ht & _).
    rewrite Ht. cbn [printed].
    generalize (firstn k (enumerate 0 (surviving pf pats (map fst es)))).
    intros l. induction l as [|[i name] l IHl]; [constructor|].
    cbn [map concat fst snd]. rewrite printed_app. apply Forall_app.
    split; [|exact IHl].
    unfold resolve. destruct (lookup name es) as [[f|d']|] eqn:Hl.
    + rewrite (visit_file _ _ _ _ _ _ _ f eq_refl). cbn [trace fst printed].
      rewrite printed_app, summarize_file_prints_nothing, file_block_run.
      cbn [trace fst printed app].
      constructor; [apply startswith_app|].
      rewrite <- (map_map (fun line => continuation prefix _ line) EvPrint).
      rewrite printed_prints. apply Forall_map, Forall_forall.
      intros line _. apply startswith_app.
    + rewrite (visit_dir _ _ _ _ _ _ _ _ eq_refl). cbn [trace fst printed].
      constructor; [apply startswith_app|].
      eapply Forall_impl; [|apply (IH name d' (lookup_In _ _ _ Hl))].
      intros line. apply startswith_app_l.
    + rewrite (visit_file _ _ _ _ _ _ _ _ eq_refl). cbn [trace fst printed].
      rewrite printed_app, summarize_file_prints_nothing, file_block_run.
      cbn [trace fst printed app].
      constructor; [apply startswith_app|].
      rewrite <- (map_map (fun line => continuation prefix _ line) EvPrint).
      rewrite printed_prints. apply Forall_map, Forall_forall.
      intros line _. apply startswith_app.
Qed.

(** ** How a run ends *)

Lemma for_each_result {A} (body : nat -> A -> M unit) (c : A -> option exn) i l :
  (forall j x, In x l -> result (body j x) = ending (c x)) ->
  result (for_each body i l) = ending (first_some (map c l)).
Proof.
  revert i; induction l as [|x l IH]; intros i H; [reflexivity|].
  simpl for_each. pose proof (H i x (or_introl eq_refl)) as Hx.
  cbn [map first_some]. destruct (c x) as [e|].
  - rewrite (bind_raises _ _ e Hx). reflexivity.
  - rewrite (bind_returns _ _ tt Hx). cbn [result snd].
    apply IH. intros j y Hy. apply H. right. exact Hy.
Qed.

Lemma for_each_raises {A} (body : nat -> A -> M unit) i l e :
  result (for_each body i l) = Raises e ->
  exists t0 j x,
    In x l /\ result (body j x) = Raises e
    /\ trace (for_each body i l) = t0 ++ trace (body j x).
Proof.
  revert i; induction l as [|x l IH]; intros i; [discriminate|].
  simpl for_each. destruct (result (body i x)) as [[]|e'] eqn:Hx.
  - rewrite (bind_returns _ _ tt Hx). cbn [result trace fst snd]. intros H.
    destruct (IH (S i) H) as (t0 & j & y & Hy & Hr & Ht).
    exists (trace (body i x) ++ t0), j, y. repeat split; auto.
    + right; exact Hy.
    + unfold trace in *. rewrite Ht, app_assoc. reflexivity.
  - rewrite (bind_raises _ _ e' Hx). cbn [result trace fst snd].
    intros [= ->]. exists [], i, x. repeat split; auto. left; reflexivity.
Qed.

Lemma visit_result pf path prefix pats es n i name :
  result (visit_entry pf path prefix n i name (resolve pf pats es name))
  = match lookup name es with
    | Some (IsDir d') =>
      result (print_tree pf (path_join pf path name)
                (prefix ++ indent_of (is_last_of n i)) pats d')
    | _ => Returns tt
    end.
Proof.
  unfold resolve. destruct (lookup name es) as [[f|d']|].
  - rewrite (visit_file _ _ _ _ _ _ _ f eq_refl). reflexivity.
  - rewrite (visit_dir _ _ _ _ _ _ _ _ eq_refl). reflexivity.
  - rewrite (visit_file _ _ _ _ _ _ _ _ eq_refl). reflexivity.
Qed.

(** A run ends with the exception of the first directory that cannot be
    listed for a reason other than permissions, and returns when there is
    none; what the files do does not matter. *)
Lemma print_tree_result pf pats d :
  forall path prefix,
    result (print_tree pf path prefix pats d) = ending (crash pf pats d).
Proof.
  induction d as [e|es IH] using dir_tree_ind; intros path prefix.
  - rewrite print_tree_NoList, bind_emit. cbn [crash].
    destruct (is_PermissionError e); reflexivity.
  - rewrite print_tree_Listed, bind_emit. cbn [result snd crash].
    apply for_each_result. intros j name _.
    rewrite visit_result.
    rewrite (lookup_map (fun en => match en with
                                   | IsFile _ => None
                                   | IsDir d' => crash pf pats d'
                                   end)).
    destruct (lookup name es) as [[f|d']|] eqn:Hl; try reflexivity.
    cbn [option_map]. apply (IH name d'). apply lookup_In. exact Hl.
Qed.

Lemma first_some_in {A} (l : list (option A)) a :
  first_some l = Some a -> In (Some a) l.
Proof.
  induction l as [|[b|] l IH]; simpl; [discriminate| |].
  - intros [= ->]. left; reflexivity.
  - intros H. right. apply IH. exact H.
Qed.

Lemma crash_not_permission pf pats d e :
  crash pf pats d = Some e -> is_PermissionError e = false.
Proof.
  revert e. induction d as [e0|es IH] using dir_tree_ind; intros e.
  - cbn [crash]. destruct (is_PermissionError e0) eqn:E; [discriminate|].
    intros [= <-]. exact E.
  - cbn [crash]. intros H. apply first_some_in in H.
    apply in_map_iff in H as (name & Hn & _).
    rewrite (lookup_map (fun en => match en with
                                   | IsFile _ => None
                                   | IsDir d' => crash pf pats d'
                                   end)) in Hn.
    destruct (lookup name es) as [[f|d']|] eqn:Hl; try discriminate.
    apply (IH name d'); [apply lookup_In; exact Hl|exact Hn].
Qed.

(** The last thing a run that raises has done is an [os.listdir]. *)
Lemma print_tree_raises_at_listdir pf pats d :
  forall path prefix e,
    result (print_tree pf path prefix pats d) = Raises e ->
    exists t p, trace (print_tree pf path prefix pats d) = t ++ [EvListdir p].
Proof.
  induction d as [e0|es IH] using dir_tree_ind; intros path prefix e.
  - rewrite print_tree_NoList, bind_emit.
    destruct (is_PermissionError e0); cbn [result trace fst snd emit raise];
      [discriminate|].
    intros _. exists [], path. reflexivity.
  - rewrite print_tree_Listed, bind_emit. cbn [result trace fst snd].
    intros H. apply for_each_raises in H as (t0 & j & name & _ & Hr & Ht).
    rewrite Ht. rewrite visit_result in Hr. unfold resolve.
    destruct (lookup name es) as [[f|d']|] eqn:Hl; try discriminate.
    rewrite (visit_dir _ _ _ _ _ _ _ _ eq_refl). cbn [trace fst].
    destruct (IH name d' (lookup_In _ _ _ Hl) _ _ _ Hr) as (t' & p & Ht').
    rewrite Ht'.
    exists (EvListdir path :: t0 ++ EvIsdir (path_join pf path name)
              :: EvPrint (prefix ++ branch_of (is_last_of
                   (length (surviving pf pats (map fst es))) j) ++ name ++ SLASH)
              :: t'), p.
    cbn [app]. f_equal. rewrite <- app_assoc. reflexivity.
Qed.

(** ** Opening files and sending requests *)

Lemma summarize_file_opens path f :
  Forall utf8_text_open (trace (summarize_file path 5000 f)).
Proof.
  rewrite summarize_file_cases.
  destruct (f_read f 5000) as [content|e];
    [destruct (f_respond f (prompt_of content))|];
    repeat constructor.
Qed.

Lemma file_block_opens prefix branch name lines :
  Forall utf8_text_open (trace (file_block prefix branch name lines)).
Proof.
  rewrite file_block_run. cbn [trace fst]. constructor; [exact I|].
  apply Forall_map, Forall_forall. intros; exact I.
Qed.

Lemma print_tree_opens pf pats d :
  forall path prefix,
    Forall utf8_text_open (trace (print_tree pf path prefix pats d)).
Proof.
  induction d as [e|es IH] using dir_tree_ind; intros path prefix.
  - rewrite print_tree_NoList, bind_emit.
    destruct (is_PermissionError e); repeat constructor.
  - destruct (print_tree_level pf path prefix pats es) as (k & _ & Ht & _).
    rewrite Ht. constructor; [exact I|].
    generalize (firstn k (enumerate 0 (surviving pf pats (map fst es)))).
    intros l. induction l as [|[i name] l IHl]; [constructor|].
    cbn [map concat fst snd]. apply Forall_app. split; [|exact IHl].
    unfold resolve. destruct (lookup name es) as [[f|d']|] eqn:Hl.
    + rewrite (visit_file _ _ _ _ _ _ _ f eq_refl). cbn [trace fst].
      constructor; [exact I|]. apply Forall_app.
      split; [apply summarize_file_opens|apply file_block_opens].
    + rewrite (visit_dir _ _ _ _ _ _ _ _ eq_refl). cbn [trace fst].
      constructor; [exact I|]. constructor; [exact I|].
      apply (IH name d' (lookup_In _ _ _ Hl)).
    + rewrite (visit_file _ _ _ _ _ _ _ _ eq_refl). cbn [trace fst].
      constructor; [exact I|]. apply Forall_app.
      split; [apply summarize_file_opens|apply file_block_opens].
Qed.

Lemma file_block_requests prefix branch name lines :
  filter is_request (trace (file_block prefix branch name lines)) = [].
Proof.
  rewrite file_block_run. cbn [trace fst filter is_request].
  induction (tl lines) as [|l ls IH]; [reflexivity|exact IH].
Qed.

(** ** Pruning ignored entries *)

Lemma insert_sorted_least x l :
  Forall (str_le x) l -> insert_sorted x l = x :: l.
Proof.
  destruct l as [|y l]; [reflexivity|].
  intros H. inversion H as [|? ? Hy _]; subst. simpl.
  unfold str_le in Hy. rewrite Hy. reflexivity.
Qed.

Lemma filter_insert_sorted p x l :
  StronglySorted str_le l ->
  filter p (insert_sorted x l)
  = if p x then insert_sorted x (filter p l) else filter p l.
Proof.
  induction 1 as [|y l Hs IH Hall]; simpl.
  - destruct (p x); reflexivity.
  - destruct (str_ltb y x) eqn:E; simpl.
    + rewrite IH. destruct (p y), (p x); simpl; try rewrite E; reflexivity.
    + destruct (p x); [|reflexivity].
      symmetry. apply insert_sorted_least.
      assert (Hx : Forall (str_le x) (y :: l)).
      { constructor; [exact E|].
        eapply Forall_impl; [|exact Hall].
        intros z Hz. eapply str_le_trans; [exact E|exact Hz]. }
      rewrite Forall_forall in *. intros z Hz. apply Hx.
      change (In z (filter p (y :: l))) in Hz.
      apply filter_In in Hz. tauto.
Qed.

Lemma filter_sorted p l : filter p (sorted l) = sorted (filter p l).
Proof.
  induction l as [|x l IH]; simpl; [reflexivity|].
  rewrite filter_insert_sorted by apply sorted_ascending.
  rewrite IH. destruct (p x); reflexivity.
Qed.

Lemma filter_idempotent {A} (p : A -> bool) l :
  filter p (filter p l) = filter p l.
Proof.
  induction l as [|x l IH]; simpl; [reflexivity|].
  destruct (p x) eqn:E; simpl; [rewrite E|]; rewrite IH; reflexivity.
Qed.

Lemma ignored_nil pf name : ignored pf [] name = false.
Proof. reflexivity. Qed.

Lemma prune_Listed pf pats es :
  prune pf pats (Listed es)
  = Listed (filter (kept pf pats)
              (map (fun ne => (fst ne, prune_entry pf pats (snd ne))) es)).
Proof. reflexivity. Qed.

Lemma pruned_names pf pats es :
  map fst (filter (kept pf pats)
             (map (fun ne => (fst ne, prune_entry pf pats (snd ne))) es))
  = filter (fun name => negb (ignored pf pats name)) (map fst es).
Proof.
  induction es as [|[k v] es IH]; simpl; [reflexivity|].
  unfold kept at 1. simpl.
  destruct (ignored pf pats k); simpl; rewrite IH; reflexivity.
Qed.

Lemma filter_all {A} (p : A -> bool) l :
  (forall x, p x = true) -> filter p l = l.
Proof.
  intros H. induction l as [|x l IH]; simpl; [reflexivity|].
  rewrite H, IH. reflexivity.
Qed.

Lemma surviving_pruned pf pats es :
  surviving pf pats
    (map fst (filter (kept pf pats)
                (map (fun ne => (fst ne, prune_entry pf pats (snd ne))) es)))
  = surviving pf pats (map fst es).
Proof.
  rewrite pruned_names. unfold surviving. destruct pats as [|p pats].
  - rewrite filter_all by reflexivity. reflexivity.
  - rewrite <- filter_sorted. apply filter_idempotent.
Qed.

Lemma lookup_pruned pf pats es name :
  ignored pf pats name = false ->
  lookup name (filter (kept pf pats)
                 (map (fun ne => (fst ne, prune_entry pf pats (snd ne))) es))
  = option_map (prune_entry pf pats) (lookup name es).
Proof.
  intros Hn. induction es as [|[k v] es IH]; simpl; [reflexivity|].
  unfold kept at 1. simpl. destruct (str_eqb k name) eqn:E.
  - apply str_eqb_eq in E. subst k. rewrite Hn. simpl.
    rewrite str_eqb_refl. reflexivity.
  - destruct (ignored pf pats k); simpl; [|rewrite E]; exact IH.
Qed.

Lemma print_tree_prune pf pats d :
  forall path prefix,
    print_tree pf path prefix pats d
    = print_tree pf path prefix pats (prune pf pats d).
Proof.
  induction d as [e|es IH] using dir_tree_ind; intros path prefix;
    [reflexivity|].
  rewrite prune_Listed, !print_tree_Listed, surviving_pruned.
  apply bind_ext; intros _. apply for_each_ext. intros j name Hin.
  apply surviving_in in Hin as [_ Hn].
  unfold resolve. rewrite (lookup_pruned _ _ _ _ Hn).
  destruct (lookup name es) as [[f|d']|] eqn:Hl; cbn [option_map prune_entry].
  - reflexivity.
  - rewrite (visit_dir _ _ _ _ _ _ _ _ eq_refl).
    rewrite (visit_dir _ _ _ _ _ _
               (fun _ => RDir (fun full' new_prefix =>
                                 print_tree pf full' new_prefix pats
                                   (prune pf pats d'))) _ eq_refl).
    rewrite <- (IH name d' (lookup_In _ _ _ Hl)). reflexivity.
  - reflexivity.
Qed.

Lemma unignored_Listed pf pats es :
  unignored pf pats (Listed es)
  <-> Forall (fun ne =>
                ignored pf pats (fst ne) = false
                /\ match snd ne with
                   | IsFile _ => True
                   | IsDir d' => unignored pf pats d'
                   end) es.
Proof.
  cbn [unignored]. induction es as [|ne es IH].
  - split; [constructor|exact (fun _ => I)].
  - split.
    + intros (H1 & H2 & H3). constructor; [split; assumption|].
      apply IH. exact H3.
    + intros H. inversion H as [|? ? [H1 H2] H3]; subst.
      split; [exact H1|]. split; [exact H2|]. apply IH. exact H3.
Qed.

Lemma prune_unignored pf pats d : unignored pf pats (prune pf pats d).
Proof.
  induction d as [e|es IH] using dir_tree_ind; [exact I|].
  rewrite prune_Listed. apply unignored_Listed.
  apply Forall_forall. intros [k v] Hin.
  apply filter_In in Hin as [Hin Hk].
  apply in_map_iff in Hin as ([k0 v0] & Heq & Hin0).
  simpl in Heq. injection Heq as -> <-.
  unfold kept in Hk. simpl in Hk. apply negb_true_iff in Hk.
  split; [exact Hk|]. simpl.
  destruct v0 as [f|d']; [exact I|]. simpl. apply (IH k d'). exact Hin0.
Qed.

Lemma prune_drops pf pats es1 name sub es2 :
  ignored pf pats name = true ->
  prune pf pats (Listed (es1 ++ (name, sub) :: es2))
  = prune pf pats (Listed (es1 ++ es2)).
Proof.
  intros Hn. rewrite !prune_Listed. f_equal.
  rewrite !map_app, !filter_app. f_equal.
  cbn [map filter]. unfold kept at 1. simpl. rewrite Hn. reflexivity.
Qed.

(** ** fnmatch without bracket expressions *)

Lemma matches_STAR more name :
  Fnmatch.matches (Fnmatch.STAR :: more) name
  = star_closure (Fnmatch.matches more) name.
Proof.
  cbn [Fnmatch.matches].
  induction name as [|x name IH]; [reflexivity|].
  cbn [star_closure]. rewrite <- IH. reflexivity.
Qed.

Lemma glob_spec_star pat name :
  glob_spec (Fnmatch.c_star :: pat) name = star_closure (glob_spec pat) name.
Proof.
  cbn [glob_spec]. rewrite N.eqb_refl.
  induction name as [|x name IH]; [reflexivity|].
  cbn [star_closure]. rewrite <- IH. reflexivity.
Qed.

Lemma star_closure_ext f g s :
  (forall t, f t = g t) -> star_closure f s = star_closure g s.
Proof.
  intros H. induction s as [|x s IH]; simpl; rewrite H; [|rewrite IH];
    reflexivity.
Qed.

Lemma star_closure_idem f s :
  star_closure (star_closure f) s = star_closure f s.
Proof.
  induction s as [|x s IH]; simpl.
  - destruct (f []); reflexivity.
  - rewrite IH. destruct (f (x :: s)), (star_closure f s); reflexivity.
Qed.

(** Without a bracket, [translate] and the rules of the specification
    agree. *)
Lemma translate_bracket_free pat :
  ~ In Fnmatch.c_lbrack pat ->
  forall name, Fnmatch.matches (Fnmatch.translate_from 0 pat) name
               = glob_spec pat name.
Proof.
  induction pat as [|c pat IH]; intros Hb name.
  - reflexivity.
  - assert (Hc : (c =? Fnmatch.c_lbrack)%N = false).
    { apply N.eqb_neq. intros ->. apply Hb. left; reflexivity. }
    assert (Hpat : ~ In Fnmatch.c_lbrack pat).
    { intros H. apply Hb. right; exact H. }
    specialize (IH Hpat).
    cbn [Fnmatch.translate_from].
    destruct (c =? Fnmatch.c_star)%N eqn:Es.
    + apply N.eqb_eq in Es. subst c. rewrite glob_spec_star.
      rewrite <- (star_closure_ext _ _ name IH).
      destruct (Fnmatch.translate_from 0 pat) as [|[| |l|neg toks|] more] eqn:Et;
        try (rewrite matches_STAR; reflexivity).
      rewrite matches_STAR.
      rewrite (star_closure_ext (Fnmatch.matches (Fnmatch.STAR :: more))
                 (star_closure (Fnmatch.matches more)) name
                 (matches_STAR more)).
      symmetry. apply star_closure_idem.
    + cbn [glob_spec]. rewrite Es.
      destruct (c =? Fnmatch.c_qmark)%N eqn:Eq.
      * cbn [Fnmatch.matches]. destruct name as [|x name]; [reflexivity|].
        cbn [Fnmatch.item_matches orb andb]. apply IH.
      * rewrite Hc. cbn [Fnmatch.matches].
        destruct name as [|x name]; [reflexivity|].
        cbn [Fnmatch.item_matches orb]. rewrite IH. reflexivity.
Qed.

Lemma ignored_bracket_free pf pats name :
  (forall s, normcase pf s = s) ->
  Forall (fun pat => ~ In Fnmatch.c_lbrack pat) pats ->
  ignored pf pats name = isExcluded_spec name pats.
Proof.
  intros Hnc Hall. unfold ignored, isExcluded_spec.
  induction Hall as [|pat pats Hpat _ IH]; [reflexivity|].
  cbn [existsb]. rewrite IH. f_equal.
  unfold Fnmatch.fnmatch, Fnmatch.fnmatchcase, Fnmatch.translate.
  rewrite !Hnc. apply translate_bracket_free. exact Hpat.
Qed.

(** ** textwrap: one turn of the loop *)

Lemma load_app a b : load (a ++ b) = load a + load b.
Proof. unfold load. rewrite concat_app, !length_app. lia. Qed.

Lemma load_cons c l : load (c :: l) = length c + 1 + load l.
Proof. unfold load. simpl. rewrite length_app. lia. Qed.

Lemma take_fitting_spec width cl chunks line len rem :
  Textwrap.take_fitting width cl chunks = (line, len, rem) ->
  chunks = line ++ rem
  /\ len = cl + length (concat line)
  /\ (cl <= width -> len <= width)
  /\ match rem with
     | c :: _ => width < len + length c
     | [] => True
     end.
Proof.
  revert cl line len rem.
  induction chunks as [|c chunks IH]; intros cl line len rem; simpl.
  - intros [= <- <- <-]. simpl. repeat split; auto; lia.
  - destruct (cl + length c <=? width) eqn:E.
    + destruct (Textwrap.take_fitting width (cl + length c) chunks)
        as [[l n] r] eqn:Et.
      intros [= <- <- <-].
      destruct (IH _ _ _ _ Et) as (H1 & H2 & H3 & H4).
      apply Nat.leb_le in E. subst chunks.
      repeat split; auto; try lia.
      simpl. rewrite length_app. lia.
    + intros [= <- <- <-]. apply Nat.leb_gt in E.
      simpl. repeat split; auto; lia.
Qed.

Lemma rfind_hyphen_bound i chunk stop h :
  Textwrap.rfind_hyphen i chunk stop = Some h -> i <= h < i + stop.
Proof.
  revert i stop; induction chunk as [|c chunk IH]; intros i stop; simpl;
    [discriminate|].
  destruct stop as [|stop]; [discriminate|].
  destruct (Textwrap.rfind_hyphen (S i) chunk stop) as [h'|] eqn:E.
  - intros [= <-]. apply IH in E. lia.
  - destruct (c =? HYPHEN)%N; [|discriminate]. intros [= <-]. lia.
Qed.

Lemma handle_long_word_spec c rest line cur_len width :
  1 <= width ->
  exists e,
    Textwrap.handle_long_word (c :: rest) line cur_len width
    = (line ++ [firstn e c], skipn e c :: rest)
    /\ e <= width - cur_len
    /\ (cur_len = 0 -> 1 <= e).
Proof.
  intros Hw. unfold Textwrap.handle_long_word.
  assert (Hlt : (width <? 1) = false) by (apply Nat.ltb_ge; exact Hw).
  rewrite Hlt.
  destruct (width - cur_len <? length c).
  - destruct (Textwrap.rfind_hyphen 0 c (width - cur_len)) as [h|] eqn:Eh.
    + apply rfind_hyphen_bound in Eh.
      destruct ((0 <? h)
                && existsb (fun c0 => negb (c0 =? HYPHEN)%N) (firstn h c)).
      * exists (h + 1). repeat split; lia.
      * exists (width - cur_len). repeat split; lia.
    + exists (width - cur_len). repeat split; lia.
  - exists (width - cur_len). repeat split; lia.
Qed.

(** The shape of one turn: chunks that fit, then possibly the head [e]
    characters of a chunk that is longer than a line, then the trailing
    blank chunk taken off. *)
Lemma next_line_shape width have c0 rest0 line3 chunks3 :
  1 <= width ->
  Textwrap.next_line width have c0 rest0 = (line3, chunks3) ->
  exists line1 chunks2 line2,
    (if Textwrap.blankb c0 && have then rest0 else c0 :: rest0)
    = line1 ++ chunks2
    /\ length (concat line1) <= width
    /\ match chunks2 with
       | c :: _ => width < length (concat line1) + length c
       | [] => True
       end
    /\ ((line2 = line1 /\ chunks3 = chunks2
         /\ match chunks2 with c :: _ => length c <= width | [] => True end)
        \/ (exists c rest' e,
              chunks2 = c :: rest' /\ width < length c
              /\ e <= width - length (concat line1)
              /\ (length (concat line1) = 0 -> 1 <= e)
              /\ line2 = line1 ++ [firstn e c]
              /\ chunks3 = skipn e c :: rest'))
    /\ (line3 = line2 \/ exists l, line2 = line3 ++ [l] /\ Textwrap.blankb l = true).
Proof.
  intros Hw. unfold Textwrap.next_line.
  destruct (Textwrap.take_fitting width 0
              (if Textwrap.blankb c0 && have then rest0 else c0 :: rest0))
    as [[line1 cur_len] chunks2] eqn:Et.
  apply take_fitting_spec in Et as (H1 & H2 & H3 & H4).
  simpl in H2. subst cur_len. specialize (H3 (Nat.le_0_l _)).
  set (res := match chunks2 with
              | c :: _ =>
                if width <? length c
                then Textwrap.handle_long_word chunks2 line1
                       (length (concat line1)) width
                else (line1, chunks2)
              | [] => (line1, chunks2)
              end).
  destruct res as [line2 chunks3'] eqn:Eres. intros [= <- <-].
  exists line1, chunks2, line2. repeat split; auto.
  - subst res. destruct chunks2 as [|c rest'].
    + injection Eres as <- <-. left. auto.
    + destruct (width <? length c) eqn:Ec.
      * apply Nat.ltb_lt in Ec. right.
        destruct (handle_long_word_spec c rest' line1
                    (length (concat line1)) width Hw) as (e & He & Hb & Hp).
        rewrite He in Eres. injection Eres as <- <-.
        exists c, rest', e. repeat split; auto.
      * apply Nat.ltb_ge in Ec. injection Eres as <- <-. left. auto.
  - destruct (rev line2) as [|l r] eqn:Er; [left; reflexivity|].
    destruct (Textwrap.blankb l) eqn:Eb; [|left; reflexivity].
    right. exists l. split; [|exact Eb].
    rewrite <- (rev_involutive line2), Er. reflexivity.
Qed.

Lemma next_line_width width have c0 rest0 line3 chunks3 :
  1 <= width ->
  Textwrap.next_line width have c0 rest0 = (line3, chunks3) ->
  length (concat line3) <= width.
Proof.
  intros Hw Hn.
  destruct (next_line_shape _ _ _ _ _ _ Hw Hn)
    as (line1 & chunks2 & line2 & _ & H1 & _ & H2 & H3).
  assert (Hl2 : length (concat line2) <= width).
  { destruct H2 as [(-> & _)|(c & rest' & e & _ & _ & He & _ & -> & _)];
      [exact H1|].
    rewrite concat_app, length_app. simpl. rewrite app_nil_r, length_firstn.
    lia. }
  destruct H3 as [->|(l & -> & _)]; [exact Hl2|].
  rewrite concat_app, length_app in Hl2. lia.
Qed.

Lemma next_line_load width have c0 rest0 line3 chunks3 :
  1 <= width ->
  Textwrap.next_line width have c0 rest0 = (line3, chunks3) ->
  load chunks3 < load (c0 :: rest0).
Proof.
  intros Hw Hn.
  destruct (next_line_shape _ _ _ _ _ _ Hw Hn)
    as (line1 & chunks2 & line2 & H0 & H1 & Hstop & H2 & _).
  assert (Hsplit : load line1 + load chunks2 <= load (c0 :: rest0)
                   /\ (line1 = [] -> chunks2 = c0 :: rest0
                       \/ load chunks2 < load (c0 :: rest0))).
  { rewrite <- load_app, <- H0.
    destruct (Textwrap.blankb c0 && have).
    - rewrite load_cons. split; [lia|]. intros ->. right.
      simpl in H0. subst chunks2. lia.
    - split; [lia|]. intros ->. left. simpl in H0. congruence. }
  destruct Hsplit as [Hle Hnil].
  assert (Hpos : line1 <> [] -> 1 <= load line1).
  { destruct line1; [congruence|]. intros _. rewrite load_cons. lia. }
  destruct H2 as [(_ & -> & Hfit)|(c & rest' & e & -> & Hc & He & Hp & _ & ->)].
  - destruct line1 as [|x line1].
    + destruct (Hnil eq_refl) as [->|Hlt]; [|exact Hlt].
      simpl in Hstop. lia.
    + specialize (Hpos ltac:(discriminate)). lia.
  - rewrite load_cons in *. rewrite length_skipn.
    destruct line1 as [|x line1].
    + simpl in Hp. specialize (Hp eq_refl).
      destruct (Hnil eq_refl) as [Heq|Hlt].
      * rewrite <- Heq, load_cons. lia.
      * rewrite load_cons in Hlt. lia.
    + specialize (Hpos ltac:(discriminate)). lia.
Qed.

Lemma blankb_differs c l :
  Textwrap.blankb c = false -> Textwrap.blankb l = true -> c <> l.
Proof. intros H1 H2 ->. congruence. Qed.

Lemma next_line_keeps width have c0 rest0 line3 chunks3 c :
  1 <= width ->
  Textwrap.next_line width have c0 rest0 = (line3, chunks3) ->
  In c (c0 :: rest0) -> length c <= width -> Textwrap.blankb c = false ->
  In c line3 \/ In c chunks3.
Proof.
  intros Hw Hn Hin Hlen Hb.
  destruct (next_line_shape _ _ _ _ _ _ Hw Hn)
    as (line1 & chunks2 & line2 & H0 & _ & _ & H2 & H3).
  assert (Hin1 : In c (line1 ++ chunks2)).
  { rewrite <- H0. destruct (Textwrap.blankb c0 && have) eqn:E; [|exact Hin].
    destruct Hin as [->|Hin]; [|exact Hin].
    rewrite Hb in E. discriminate. }
  apply in_app_or in Hin1.
  assert (H23 : In c line2 \/ In c chunks3).
  { destruct H2 as [(-> & -> & _)|(c' & rest' & e & -> & Hc & _ & _ & -> & ->)];
      [exact Hin1|].
    destruct Hin1 as [Hin1|[<-|Hin1]].
    - left. apply in_or_app. left. exact Hin1.
    - lia.
    - right. right. exact Hin1. }
  destruct H23 as [H23|H23]; [|right; exact H23].
  destruct H3 as [->|(l & -> & Hl)]; [left; exact H23|].
  apply in_app_or in H23 as [H23|[<-|[]]]; [left; exact H23|].
  congruence.
Qed.

Lemma next_line_chars (P : char -> Prop) width have c0 rest0 line3 chunks3 :
  1 <= width ->
  Textwrap.next_line width have c0 rest0 = (line3, chunks3) ->
  Forall (Forall P) (c0 :: rest0) ->
  Forall (Forall P) line3 /\ Forall (Forall P) chunks3.
Proof.
  intros Hw Hn Hall.
  destruct (next_line_shape _ _ _ _ _ _ Hw Hn)
    as (line1 & chunks2 & line2 & H0 & _ & _ & H2 & H3).
  assert (H12 : Forall (Forall P) (line1 ++ chunks2)).
  { rewrite <- H0. destruct (Textwrap.blankb c0 && have); [|exact Hall].
    inversion Hall; assumption. }
  apply Forall_app in H12 as [Hl1 Hc2].
  assert (H23 : Forall (Forall P) line2 /\ Forall (Forall P) chunks3).
  { destruct H2 as [(-> & -> & _)|(c' & rest' & e & -> & _ & _ & _ & -> & ->)];
      [split; assumption|].
    inversion Hc2 as [|? ? Hc' Hrest]; subst. split.
    - apply Forall_app. split; [exact Hl1|].
      constructor; [|constructor].
      rewrite <- (firstn_skipn e c') in Hc'.
      apply Forall_app in Hc'. tauto.
    - constructor; [|exact Hrest].
      rewrite <- (firstn_skipn e c') in Hc'.
      apply Forall_app in Hc'. tauto. }
  destruct H23 as [Hl2 Hc3]. split; [|exact Hc3].
  destruct H3 as [->|(l & -> & _)]; [exact Hl2|].
  apply Forall_app in Hl2. tauto.
Qed.

(** ** textwrap: the whole loop *)

Lemma wrap_loop_total width :
  1 <= width ->
  forall fuel have chunks,
    load chunks < fuel ->
    exists lines, Textwrap.wrap_loop fuel width have chunks = Some lines.
Proof.
  intros Hw. induction fuel as [|fuel IH]; intros have chunks Hf; [lia|].
  destruct chunks as [|c0 rest0]; [exists []; reflexivity|].
  cbn [Textwrap.wrap_loop].
  destruct (Textwrap.next_line width have c0 rest0) as [line3 chunks3] eqn:En.
  pose proof (next_line_load _ _ _ _ _ _ Hw En) as Hl.
  destruct line3 as [|x line3].
  - apply IH. lia.
  - destruct (IH true chunks3 ltac:(lia)) as [lines ->].
    eexists. reflexivity.
Qed.

Lemma wrap_loop_width width :
  1 <= width ->
  forall fuel have chunks lines,
    Textwrap.wrap_loop fuel width have chunks = Some lines ->
    Forall (fun line => length line <= width) lines.
Proof.
  intros Hw. induction fuel as [|fuel IH]; intros have chunks lines.
  - destruct chunks; [intros [= <-]; constructor|discriminate].
  - destruct chunks as [|c0 rest0]; [intros [= <-]; constructor|].
    cbn [Textwrap.wrap_loop].
    destruct (Textwrap.next_line width have c0 rest0) as [line3 chunks3] eqn:En.
    pose proof (next_line_width _ _ _ _ _ _ Hw En) as Hl.
    destruct line3 as [|x line3]; [apply IH|].
    destruct (Textwrap.wrap_loop fuel width true chunks3) as [ls|] eqn:Er;
      [|discriminate].
    intros [= <-]. constructor; [exact Hl|]. eapply IH. exact Er.
Qed.

Lemma wrap_loop_chars (P : char -> Prop) width :
  1 <= width ->
  forall fuel have chunks lines,
    Forall (Forall P) chunks ->
    Textwrap.wrap_loop fuel width have chunks = Some lines ->
    Forall (Forall P) lines.
Proof.
  intros Hw. induction fuel as [|fuel IH]; intros have chunks lines Hall.
  - destruct chunks; [intros [= <-]; constructor|discriminate].
  - destruct chunks as [|c0 rest0]; [intros [= <-]; constructor|].
    cbn [Textwrap.wrap_loop].
    destruct (Textwrap.next_line width have c0 rest0) as [line3 chunks3] eqn:En.
    destruct (next_line_chars P _ _ _ _ _ _ Hw En Hall) as [Hl Hc].
    destruct line3 as [|x line3]; [apply IH; exact Hc|].
    destruct (Textwrap.wrap_loop fuel width true chunks3) as [ls|] eqn:Er;
      [|discriminate].
    intros [= <-]. constructor; [|eapply IH; eassumption].
    apply (proj2 (Forall_concat P (x :: line3))). exact Hl.
Qed.

Lemma in_concat_infix (c : str) (line : list str) :
  In c line -> infix c (concat line).
Proof.
  intros H. apply in_split in H as (l1 & l2 & ->).
  exists (concat l1), (concat l2). rewrite concat_app. reflexivity.
Qed.

(** A chunk that fits in a line and is not blank is on one line whole. *)
Lemma wrap_loop_keeps width :
  1 <= width ->
  forall fuel have chunks lines c,
    Textwrap.wrap_loop fuel width have chunks = Some lines ->
    In c chunks -> length c <= width -> Textwrap.blankb c = false ->
    exists line, In line lines /\ infix c line.
Proof.
  intros Hw. induction fuel as [|fuel IH]; intros have chunks lines c.
  - destruct chunks; [intros _ []|discriminate].
  - destruct chunks as [|c0 rest0]; [intros _ []|].
    cbn [Textwrap.wrap_loop].
    destruct (Textwrap.next_line width have c0 rest0) as [line3 chunks3] eqn:En.
    intros Hr Hin Hlen Hb.
    destruct (next_line_keeps _ _ _ _ _ _ c Hw En Hin Hlen Hb) as [H|H].
    + destruct line3 as [|x line3]; [destruct H|].
      destruct (Textwrap.wrap_loop fuel width true chunks3) as [ls|];
        [|discriminate].
      injection Hr as <-. exists (concat (x :: line3)).
      split; [left; reflexivity|]. apply in_concat_infix. exact H.
    + destruct line3 as [|x line3].
      * eapply IH; eassumption.
      * destruct (Textwrap.wrap_loop fuel width true chunks3) as [ls|] eqn:Er;
          [|discriminate].
        injection Hr as <-.
        destruct (IH _ _ _ c Er H Hlen Hb) as (line & Hl & Hi).
        exists line. split; [right; exact Hl|exact Hi].
Qed.

(** ** textwrap: splitting into chunks *)

Lemma is_ws_not_hyphen c : Textwrap.is_ws c = true -> c <> HYPHEN.
Proof. intros H ->. discriminate. Qed.

Lemma hyphen_break_other pf before x s :
  x <> HYPHEN -> Textwrap.hyphen_break pf before (x :: s) = false.
Proof.
  intros H. unfold Textwrap.hyphen_break.
  apply N.eqb_neq in H. rewrite H. reflexivity.
Qed.

Lemma emdash_here_other pf x s :
  x <> HYPHEN -> Textwrap.emdash_here pf (x :: s) = None.
Proof.
  intros H. unfold Textwrap.emdash_here. cbn [Textwrap.hyphen_run].
  apply N.eqb_neq in H. rewrite H. reflexivity.
Qed.

Lemma emdash_after_other pf before x s :
  x <> HYPHEN -> Textwrap.emdash_after pf before (x :: s) = false.
Proof.
  intros H. unfold Textwrap.emdash_after.
  destruct before; [reflexivity|].
  rewrite (emdash_here_other pf x s H). apply andb_false_r.
Qed.

Lemma emdash_here_some pf s n :
  Textwrap.emdash_here pf s = Some n -> n = Textwrap.hyphen_run s /\ 2 <= n.
Proof.
  unfold Textwrap.emdash_here.
  destruct (2 <=? Textwrap.hyphen_run s) eqn:E; [|discriminate].
  apply Nat.leb_le in E.
  destruct (skipn (Textwrap.hyphen_run s) s) as [|c r]; [discriminate|].
  destruct (Textwrap.word_char pf c); [|discriminate].
  intros [= <-]. split; [reflexivity|exact E].
Qed.

Lemma word_end_plain pf w before b :
  Forall (fun c => Textwrap.is_ws c = false) w -> ~ In HYPHEN w ->
  starts_ws b ->
  Textwrap.word_end pf before (w ++ b) = length w.
Proof.
  intros Hw Hh Hb. revert before.
  induction w as [|x w IH]; intros before.
  - simpl. destruct Hb as [->|(c & b' & -> & Hc)]; [reflexivity|].
    cbn [Textwrap.word_end].
    rewrite (hyphen_break_other pf before c b' (is_ws_not_hyphen c Hc)), Hc.
    reflexivity.
  - inversion Hw as [|? ? Hx Hw']; subst.
    assert (Hxh : x <> HYPHEN) by (intros ->; apply Hh; left; reflexivity).
    cbn [app Textwrap.word_end length].
    rewrite (hyphen_break_other pf before x _ Hxh), Hx,
      (emdash_after_other pf before x _ Hxh).
    rewrite IH; [reflexivity|exact Hw'|].
    intros H. apply Hh. right. exact H.
Qed.

Lemma word_end_le pf before s1 c s2 :
  Textwrap.is_ws c = true ->
  Textwrap.word_end pf before (s1 ++ c :: s2) <= length s1.
Proof.
  intros Hc. revert before. induction s1 as [|x s1 IH]; intros before.
  - cbn [app Textwrap.word_end].
    rewrite (hyphen_break_other pf before c s2 (is_ws_not_hyphen c Hc)), Hc.
    simpl. lia.
  - cbn [app Textwrap.word_end length].
    destruct (Textwrap.hyphen_break pf before (x :: s1 ++ c :: s2)); [lia|].
    destruct (Textwrap.is_ws x); [lia|].
    destruct (Textwrap.emdash_after pf before (x :: s1 ++ c :: s2)); [lia|].
    specialize (IH (x :: before)). lia.
Qed.

Lemma hyphen_run_le s1 c s2 :
  c <> HYPHEN -> Textwrap.hyphen_run (s1 ++ c :: s2) <= length s1.
Proof.
  intros Hc. induction s1 as [|x s1 IH]; simpl.
  - apply N.eqb_neq in Hc. rewrite Hc. lia.
  - destruct (x =? HYPHEN)%N; lia.
Qed.

Lemma ws_run_le s1 c s2 :
  Textwrap.is_ws c = false -> Textwrap.ws_run (s1 ++ c :: s2) <= length s1.
Proof.
  intros Hc. induction s1 as [|x s1 IH]; simpl.
  - rewrite Hc. lia.
  - destruct (Textwrap.is_ws x); lia.
Qed.

(** A chunk that starts before a word ends before it. *)
Lemma chunk_len_before_word pf before x a w b :
  ends_ws (x :: a) -> plain_word w ->
  1 <= Textwrap.chunk_len pf before ((x :: a) ++ w ++ b) <= length (x :: a).
Proof.
  intros He (Hne & Hws & _).
  destruct w as [|y w]; [congruence|]. inversion Hws as [|? ? Hy _]; subst.
  cbn [app Textwrap.chunk_len].
  destruct (Textwrap.is_ws x) eqn:Ex.
  - split; [cbn [Textwrap.ws_run]; rewrite Ex; lia|].
    change (x :: a ++ y :: w ++ b) with ((x :: a) ++ y :: w ++ b).
    apply ws_run_le. exact Hy.
  - destruct He as [He|(a' & c & He & Hc)]; [discriminate|].
    destruct a' as [|x' a'].
    { simpl in He. injection He as -> _. congruence. }
    simpl in He. injection He as <- ->.
    assert (Hrest : (a' ++ [c]) ++ y :: w ++ b = a' ++ c :: y :: w ++ b)
      by (rewrite <- app_assoc; reflexivity).
    destruct (match before with
              | p :: _ =>
                if Textwrap.word_punct pf p
                then Textwrap.emdash_here pf (x :: (a' ++ [c]) ++ y :: w ++ b)
                else None
              | [] => None
              end) as [n|] eqn:En.
    + assert (Hn : Textwrap.emdash_here pf (x :: (a' ++ [c]) ++ y :: w ++ b)
                   = Some n).
      { destruct before as [|p before']; [discriminate|].
        destruct (Textwrap.word_punct pf p); [exact En|discriminate]. }
      apply emdash_here_some in Hn as [-> Hn2]. split; [lia|].
      rewrite Hrest.
      change (x :: a' ++ c :: y :: w ++ b)
        with ((x :: a') ++ c :: y :: w ++ b).
      pose proof (hyphen_run_le (x :: a') c (y :: w ++ b)
                    (is_ws_not_hyphen c Hc)).
      cbn [length] in *. rewrite length_app. cbn [length]. lia.
    + split; [lia|]. rewrite Hrest.
      pose proof (word_end_le pf (x :: before) a' c (y :: w ++ b) Hc).
      cbn [length] in *. rewrite length_app. cbn [length]. lia.
Qed.

(** At a word the chunk is the word. *)
Lemma chunk_len_at_word pf before w b :
  plain_word w -> starts_ws b ->
  Textwrap.chunk_len pf before (w ++ b) = length w.
Proof.
  intros (Hne & Hws & Hh) Hb.
  destruct w as [|y w]; [congruence|]. inversion Hws as [|? ? Hy Hw']; subst.
  assert (Hyh : y <> HYPHEN) by (intros ->; apply Hh; left; reflexivity).
  cbn [app Textwrap.chunk_len]. rewrite Hy.
  assert (Hnone : match before with
                  | p :: _ =>
                    if Textwrap.word_punct pf p
                    then Textwrap.emdash_here pf (y :: w ++ b)
                    else None
                  | [] => None
                  end = None).
  { destruct before as [|p before']; [reflexivity|].
    rewrite (emdash_here_other pf y _ Hyh).
    destruct (Textwrap.word_punct pf p); reflexivity. }
  rewrite Hnone. simpl. f_equal.
  apply word_end_plain; auto. intros H. apply Hh. right. exact H.
Qed.

Lemma ends_ws_skipn n a : ends_ws a -> ends_ws (skipn n a).
Proof.
  intros [->|(a' & c & -> & Hc)].
  - left. destruct n; reflexivity.
  - destruct (Nat.le_gt_cases n (length a')) as [Hn|Hn].
    + right. exists (skipn n a'), c. split; [|exact Hc].
      rewrite skipn_app. replace (n - length a') with 0 by lia. reflexivity.
    + left. apply skipn_all2. rewrite length_app. simpl. lia.
Qed.

Lemma split_from_word pf w b :
  plain_word w -> starts_ws b ->
  forall fuel before a,
    ends_ws a -> length (a ++ w ++ b) <= fuel ->
    In w (Textwrap.split_from pf fuel before (a ++ w ++ b)).
Proof.
  intros Hw Hb. induction fuel as [|fuel IH]; intros before a Ha Hf.
  - destruct Hw as (Hne & _). destruct w; [congruence|].
    rewrite !length_app in Hf. simpl in Hf. lia.
  - destruct a as [|x a].
    + pose proof (chunk_len_at_word pf before w b Hw Hb) as Hn.
      destruct Hw as (Hne & _). destruct w as [|y w]; [congruence|].
      cbn [app Textwrap.split_from] in *. left.
      rewrite Hn. change (y :: w ++ b) with ((y :: w) ++ b).
      rewrite firstn_app, firstn_all, Nat.sub_diag. simpl.
      rewrite app_nil_r. reflexivity.
    + pose proof (chunk_len_before_word pf before x a w b Ha Hw) as [Hn1 Hn2].
      cbn [app Textwrap.split_from] in *. right.
      set (n := Textwrap.chunk_len pf before (x :: a ++ w ++ b)) in *.
      replace (skipn n (x :: a ++ w ++ b)) with (skipn n (x :: a) ++ w ++ b).
      * apply IH; [apply ends_ws_skipn; exact Ha|].
        rewrite length_app, length_skipn. cbn [length] in *.
        rewrite length_app in Hf. lia.
      * change (x :: a ++ w ++ b) with ((x :: a) ++ w ++ b).
        rewrite skipn_app. replace (n - length (x :: a)) with 0 by lia.
        reflexivity.
Qed.

Lemma split_from_chars (P : char -> Prop) pf :
  forall fuel before s,
    Forall P s -> Forall (Forall P) (Textwrap.split_from pf fuel before s).
Proof.
  induction fuel as [|fuel IH]; intros before s Hs; [constructor|].
  destruct s as [|x s]; [constructor|].
  cbn [Textwrap.split_from].
  set (n := Textwrap.chunk_len pf before (x :: s)).
  rewrite <- (firstn_skipn n (x :: s)) in Hs.
  apply Forall_app in Hs as [H1 H2].
  constructor; [exact H1|]. apply IH. exact H2.
Qed.

Lemma munge_no_newline text :
  Forall (fun c => c <> LF) (Textwrap.munge_whitespace text).
Proof.
  unfold Textwrap.munge_whitespace. apply Forall_map, Forall_forall.
  intros c _. destruct (Textwrap.is_ws c) eqn:E; [discriminate|].
  intros ->. discriminate.
Qed.

(** ** [split] after [join] *)

Lemma split_plain l :
  Forall (fun c => c <> LF) l -> split LF l = [l].
Proof.
  induction 1 as [|c l Hc _ IH]; [reflexivity|].
  cbn [split]. apply N.eqb_neq in Hc. rewrite Hc, IH. reflexivity.
Qed.

Lemma split_at_newline l rest :
  Forall (fun c => c <> LF) l ->
  split LF (l ++ LF :: rest) = l :: split LF rest.
Proof.
  induction 1 as [|c l Hc _ IH]; [reflexivity|].
  cbn [app split]. apply N.eqb_neq in Hc. rewrite Hc, IH. reflexivity.
Qed.

Lemma split_join lines :
  lines <> [] ->
  Forall (Forall (fun c => c <> LF)) lines ->
  split LF (join LF lines) = lines.
Proof.
  intros Hne Hall. induction Hall as [|l lines Hl Hall IH]; [congruence|].
  destruct lines as [|l' lines].
  - simpl. apply split_plain. exact Hl.
  - cbn [join]. rewrite split_at_newline by exact Hl.
    f_equal. apply IH. discriminate.
Qed.

(** ** Blank chunks *)

Lemma lstrip_split s :
  exists p, s = p ++ lstrip s /\ forallb isspace p = true.
Proof.
  induction s as [|c s (p & Hp & Hall)]; [exists []; auto|].
  cbn [lstrip]. destruct (isspace c) eqn:E.
  - exists (c :: p). simpl. rewrite E, Hall. split; [f_equal; exact Hp|auto].
  - exists []. auto.
Qed.

Lemma strip_nil_blank s : strip s = [] -> forallb isspace s = true.
Proof.
  unfold strip, rstrip. intros H.
  assert (H1 : lstrip (rev (lstrip s)) = []).
  { destruct (lstrip (rev (lstrip s))) as [|c0 l0]; [reflexivity|].
    apply (f_equal (@length char)) in H. rewrite length_rev in H.
    discriminate. }
  destruct (lstrip_split (rev (lstrip s))) as (p & Hp & Hall).
  rewrite H1, app_nil_r in Hp.
  destruct (lstrip_split s) as (q & Hq & Hallq).
  rewrite Hq, forallb_app, Hallq. simpl.
  rewrite <- (rev_involutive (lstrip s)), Hp.
  rewrite forallb_forall in *. intros c Hc. apply Hall.
  apply in_rev. exact Hc.
Qed.

Lemma blankb_visible w :
  (exists c, In c w /\ isspace c = false) -> Textwrap.blankb w = false.
Proof.
  intros (c & Hin & Hc). unfold Textwrap.blankb.
  destruct (strip w) eqn:E; [|reflexivity].
  apply strip_nil_blank in E. rewrite forallb_forall in E.
  rewrite (E c Hin) in Hc. discriminate.
Qed.

(** ** The wrapped summary *)

Lemma wrap_some pf width text :
  1 <= width ->
  Textwrap.wrap_chunks width (Textwrap.split_chunks pf text)
  = Some (Textwrap.wrap pf width text).
Proof.
  intros Hw. unfold Textwrap.wrap, Textwrap.wrap_chunks.
  destruct (wrap_loop_total width Hw
              (Textwrap.wrap_fuel (Textwrap.split_chunks pf text)) false
              (Textwrap.split_chunks pf text)) as [lines ->];
    [|reflexivity].
  unfold Textwrap.wrap_fuel, load. lia.
Qed.

Lemma wrap_no_newline pf width text :
  1 <= width ->
  Forall (Forall (fun c => c <> LF)) (Textwrap.wrap pf width text).
Proof.
  intros Hw.
  eapply (wrap_loop_chars _ width Hw); [|exact (wrap_some pf width text Hw)].
  apply split_from_chars, munge_no_newline.
Qed.

Lemma summary_lines_wrap pf summary :
  summary_lines pf summary
  = match Textwrap.wrap pf 60 summary with
    | [] => [[]]
    | l :: ls => l :: ls
    end.
Proof.
  unfold summary_lines, Textwrap.fill.
  pose proof (wrap_no_newline pf 60 summary ltac:(lia)) as Hn.
  destruct (Textwrap.wrap pf 60 summary) as [|l ls]; [reflexivity|].
  apply split_join; [discriminate|exact Hn].
Qed.

Lemma summary_lines_width pf summary :
  Forall (fun line => length line <= 60) (summary_lines pf summary).
Proof.
  rewrite summary_lines_wrap.
  pose proof (wrap_loop_width 60 ltac:(lia) _ _ _ _
                (wrap_some pf 60 summary ltac:(lia))) as Hw.
  destruct (Textwrap.wrap pf 60 summary); [|exact Hw].
  constructor; [simpl; lia|constructor].
Qed.

Lemma summary_lines_keep_word pf summary a w b :
  Textwrap.munge_whitespace summary = a ++ w ++ b ->
  ends_ws a -> starts_ws b -> plain_word w ->
  (exists c, In c w /\ isspace c = false) ->
  length w <= 60 ->
  exists line, In line (summary_lines pf summary) /\ infix w line.
Proof.
  intros Hm Ha Hb Hw Hv Hlen.
  assert (Hin : In w (Textwrap.split_chunks pf summary)).
  { unfold Textwrap.split_chunks. rewrite Hm.
    apply split_from_word; auto. }
  destruct (wrap_loop_keeps 60 ltac:(lia) _ _ _ _ w
              (wrap_some pf 60 summary ltac:(lia)) Hin Hlen
              (blankb_visible w Hv)) as (line & Hl & Hi).
  exists line. split; [|exact Hi].
  rewrite summary_lines_wrap.
  destruct (Textwrap.wrap pf 60 summary); [destruct Hl|exact Hl].
Qed.

Lemma infix_length w line : infix w line -> length w <= length line.
Proof. intros (a & b & ->). rewrite !length_app. lia. Qed.

Lemma visit_file_printed pf path prefix n i name r f :
  r (path_join pf path name) = RFile f ->
  let lines := summary_lines pf (summary_of (path_join pf path name) f) in
  printed (trace (visit_entry pf path prefix n i name r))
  = (prefix ++ branch_of (is_last_of n i) ++ name ++ DASH_SEP ++ hd [] lines)
      :: map (fun line => prefix ++ spaces 6 ++ line) (tl lines).
Proof.
  intros Hr lines.
  rewrite (visit_file _ _ _ _ _ _ _ _ Hr). cbn [trace fst printed].
  rewrite printed_app, summarize_file_prints_nothing, file_block_run.
  cbn [trace fst printed app]. f_equal.
  rewrite <- (map_map (fun line => continuation prefix _ line) EvPrint).
  rewrite printed_prints. apply map_ext. intros line.
  unfold continuation. rewrite branch_length. reflexivity.
Qed.

(* ================================================================= *)
(** * The claims *)

(** ** C1 *)

(** C1, as stated, fails on a directory with no surviving entry: the loop
    flags no entry as last and prints nothing. *)
Lemma C1_empty_directory_flags_nothing :
  let entries := surviving posix [] (map fst (@nil (str * entry))) in
  ~ (exists i, i < length entries /\ is_last_of (length entries) i = true)
  /\ printed (trace (print_tree posix (py "/r") [] [] (Listed []))) = [].
Proof.
  split; [|reflexivity].
  intros [i [Hi _]]. simpl in Hi. lia.
Qed.

(** C1 (amended): for every directory [print_tree] visits whose listing
    has no repeated name, the surviving entries are in strict ascending
    order of their names; the directory's trace is its [os.listdir]
    followed by the visits of those entries in that order (all of them
    when the call returns); the first line each visit prints is the
    prefix, the glyph [BRANCH_LAST] for the entry of the last index and
    [BRANCH_MID] for every earlier one, and the name; and when at least
    one entry survives exactly one index is flagged as last. *)
Theorem C1_sorted_entries_and_last_flag pf path prefix pats es :
  NoDup (map fst es) ->
  let entries := surviving pf pats (map fst es) in
  StronglySorted str_lt entries
  /\ (exists k,
        k <= length entries
        /\ trace (print_tree pf path prefix pats (Listed es))
           = EvListdir path
               :: concat
                    (map (fun p =>
                            trace (visit_entry pf path prefix (length entries)
                                     (fst p) (snd p)
                                     (resolve pf pats es (snd p))))
                       (firstn k (enumerate 0 entries)))
        /\ (result (print_tree pf path prefix pats (Listed es)) = Returns tt ->
            k = length entries))
  /\ (forall i name,
        nth_error entries i = Some name ->
        exists sfx more,
          printed (trace (visit_entry pf path prefix (length entries) i name
                            (resolve pf pats es name)))
          = (prefix
               ++ (if Nat.eqb i (length entries - 1)
                   then BRANCH_LAST else BRANCH_MID)
               ++ name ++ sfx) :: more)
  /\ (entries <> [] ->
      exists! i, i < length entries /\ is_last_of (length entries) i = true).
Proof.
  intros Hnd entries. split; [|split; [|split]].
  - apply surviving_strict. exact Hnd.
  - apply print_tree_level.
  - intros i name _. apply visit_headline.
  - intros Hne. apply last_flag_unique.
    destruct entries; [congruence|simpl; lia].
Qed.

(** C1 on a listing of two entries given out of order. *)
Lemma C1_sorted_entries_and_last_flag_witness :
  let es := [ (py "b", IsDir (Listed [])); (py "a.txt", IsFile (plain_file (py "hello") (py "about a"))) ] in
  let entries := surviving posix [] (map fst es) in
  NoDup (map fst es)
  /\ entries = [py "a.txt"; py "b"]
  /\ StronglySorted str_lt entries
  /\ (entries <> [] ->
      exists! i, i < length entries /\ is_last_of (length entries) i = true).
Proof.
  intros es entries.
  assert (Hnd : NoDup (map fst es)).
  { repeat constructor; simpl; intuition discriminate. }
  split; [exact Hnd|]. split; [reflexivity|].
  pose proof (C1_sorted_entries_and_last_flag posix (py "/r") [] [] es Hnd)
    as (Hs & _ & _ & Hl).
  split; [exact Hs|exact Hl].
Defined.

(** ** C2 *)

(** C2, as stated, fails on a pattern with a bracket expression: the
    pattern [[ab]], loaded from a line of [ignore.txt], excludes the name
    [a], which the rules of the specification do not match, and does not
    exclude the name [[ab]], which they do. *)
Lemma C2_bracket_expression_is_a_class :
  patterns_of_lines [py "# rules" ++ [LF]; [LF]; py "[ab]" ++ [LF]] = [py "[ab]"]
  /\ surviving posix [py "[ab]"] [py "a"] = []
  /\ isExcluded_spec (py "a") [py "[ab]"] = false
  /\ surviving posix [py "[ab]"] [py "[ab]"] = [py "[ab]"]
  /\ isExcluded_spec (py "[ab]") [py "[ab]"] = true.
Proof. repeat split; vm_compute; reflexivity. Qed.

(** C2 (amended): where [os.path.normcase] changes nothing (POSIX),
    [print_tree] drops a name from the listing if and only if the bare
    name matches at least one pattern under the rules of
    [fnmatch.fnmatchcase], which are case-sensitive and know no path
    separator: [*] is any run of characters, [?] is any one character, a
    bracket expression [[seq]] or [[!seq]] is a character class, and
    every other character stands for itself.  For patterns without a
    bracket these are exactly the rules of the specification. *)
Theorem C2_exclusion_follows_fnmatch pf pats listing name :
  (forall s, normcase pf s = s) ->
  (ignored pf pats name = true
   <-> exists pat, In pat pats /\ Fnmatch.fnmatchcase name pat = true)
  /\ (In name (surviving pf pats listing)
      <-> In name listing /\ ignored pf pats name = false)
  /\ (Forall (fun pat => ~ In Fnmatch.c_lbrack pat) pats ->
      ignored pf pats name = isExcluded_spec name pats).
Proof.
  intros Hnc. split; [|split].
  - unfold ignored. rewrite existsb_exists.
    split; intros (pat & Hin & Hm); exists pat; split; auto;
      unfold Fnmatch.fnmatch in *; rewrite !Hnc in *; exact Hm.
  - apply surviving_in.
  - apply ignored_bracket_free. exact Hnc.
Qed.

(** C2 on two patterns and four names; the match is case-sensitive. *)
Lemma C2_exclusion_follows_fnmatch_witness :
  surviving posix [py "*.log"; py "b?"] [py "debug.log"; py "a.txt"; py "b1"; py "B1"]
  = [py "B1"; py "a.txt"]
  /\ (ignored posix [py "*.log"; py "b?"] (py "debug.log") = true
      <-> exists pat, In pat [py "*.log"; py "b?"]
                      /\ Fnmatch.fnmatchcase (py "debug.log") pat = true).
Proof.
  split; [vm_compute; reflexivity|].
  exact (proj1 (C2_exclusion_follows_fnmatch posix [py "*.log"; py "b?"]
                  [py "debug.log"; py "a.txt"; py "b1"; py "B1"]
                  (py "debug.log") (fun s => eq_refl))).
Defined.

(** ** C3 *)

(** C3, as stated, fails on a word of 61 characters: it is cut after its
    60th character and is whole on no line. *)
Lemma C3_long_word_is_split :
  summary_of (py "/r/a.txt") (plain_file (py "hello") long_word) = long_word
  /\ summary_lines posix long_word = [repeat 97%N 60; [97%N]]
  /\ ~ (exists line,
          In line (summary_lines posix long_word) /\ infix long_word line).
Proof.
  split; [reflexivity|].
  assert (H : summary_lines posix long_word = [repeat 97%N 60; [97%N]])
    by (vm_compute; reflexivity).
  split; [exact H|].
  intros (line & Hin & Hi). apply infix_length in Hi.
  rewrite H in Hin.
  destruct Hin as [<-|[<-|[]]]; vm_compute in Hi; lia.
Qed.

(** C3 (amended): the lines printed for a file are its summary wrapped by
    [textwrap.fill] at width 60 with the default options, which break
    long words.  Wrapping always succeeds; every output line has at most
    60 characters; every word of the summary (after tabs and other white
    space have become spaces) that has no hyphen, has a visible
    character and is at most 60 characters long appears whole on one
    output line; and a word longer than 60 characters is whole on no
    line. *)
Theorem C3_summary_wrapped_at_60 pf path prefix n i name r f :
  r (path_join pf path name) = RFile f ->
  let summary := summary_of (path_join pf path name) f in
  let lines := summary_lines pf summary in
  printed (trace (visit_entry pf path prefix n i name r))
  = (prefix ++ branch_of (is_last_of n i) ++ name ++ DASH_SEP ++ hd [] lines)
      :: map (fun line => prefix ++ spaces 6 ++ line) (tl lines)
  /\ Textwrap.wrap_chunks 60 (Textwrap.split_chunks pf summary)
     = Some (Textwrap.wrap pf 60 summary)
  /\ lines = match Textwrap.wrap pf 60 summary with
             | [] => [[]]
             | l :: ls => l :: ls
             end
  /\ Forall (fun line => length line <= 60) lines
  /\ (forall a w b,
        Textwrap.munge_whitespace summary = a ++ w ++ b ->
        ends_ws a -> starts_ws b -> plain_word w ->
        (exists c, In c w /\ isspace c = false) ->
        length w <= 60 ->
        exists line, In line lines /\ infix w line)
  /\ (forall w line, 60 < length w -> In line lines -> ~ infix w line).
Proof.
  intros Hr summary lines. split; [|split; [|split; [|split; [|split]]]].
  - apply visit_file_printed. exact Hr.
  - apply wrap_some. lia.
  - apply summary_lines_wrap.
  - apply summary_lines_width.
  - intros a w b. apply summary_lines_keep_word.
  - intros w line Hw Hin Hi. apply infix_length in Hi.
    pose proof (summary_lines_width pf summary) as Hall.
    rewrite Forall_forall in Hall. specialize (Hall line Hin). lia.
Qed.

(** C3 on a summary of 71 characters: two lines, and the word that
    would cross column 60 is whole on the second. *)
Lemma C3_summary_wrapped_at_60_witness :
  let long := py "one two three four five six seven eight nine ten eleven twelve thirteen" in
  summary_lines posix long
  = [py "one two three four five six seven eight nine ten eleven"; py "twelve thirteen"]
  /\ exists line, In line (summary_lines posix long) /\ infix (py "twelve") line.
Proof.
  intros long.
  pose proof (C3_summary_wrapped_at_60 posix (py "/r") [] 1 0 (py "a.txt")
                (fun _ => RFile (plain_file (py "x") long))
                (plain_file (py "x") long) eq_refl)
    as (_ & _ & _ & _ & Hword & _).
  split; [vm_compute; reflexivity|].
  apply (Hword (py "one two three four five six seven eight nine ten eleven ")
               (py "twelve") (py " thirteen")).
  - vm_compute. reflexivity.
  - right. exists (py "one two three four five six seven eight nine ten eleven"), SP.
    split; reflexivity.
  - right. exists SP, (py "thirteen"). split; reflexivity.
  - split; [discriminate|]. split.
    + repeat constructor.
    + vm_compute. intuition discriminate.
  - exists 116%N. split; [left; reflexivity|reflexivity].
  - vm_compute. lia.
Defined.

(** ** C4 *)

(** C4, as stated, fails: the second line of the summary of [a.txt]
    starts in column 6, under the name, and not in column 12 where the
    text of the first summary line starts. *)
Lemma C4_continuation_starts_under_the_name :
  printed (trace (print_tree posix (py "/r") [] [] long_summary_tree))
  = [py "└── a.txt - " ++ repeat 97%N 60; spaces 6 ++ py "a"]
  /\ length (py "└── a.txt - ") = 12
  /\ spaces 6 ++ py "a" <> spaces 12 ++ py "a".
Proof.
  split; [vm_compute; reflexivity|].
  split; [reflexivity|]. vm_compute. discriminate.
Qed.

(** C4 (amended): for every file the first summary line follows [" - "]
    on the line of the file name, and every further line of the wrapped
    summary is printed after the prefix and six spaces (the width of the
    glyph and two more).  That column is two to the right of where the
    name starts and always to the left of the column where the text of
    the first summary line starts, so the further lines do not align
    under the summary text. *)
Theorem C4_summary_block_layout pf path prefix n i name r f :
  r (path_join pf path name) = RFile f ->
  let full := path_join pf path name in
  let branch := branch_of (is_last_of n i) in
  let lines := summary_lines pf (summary_of full f) in
  printed (trace (visit_entry pf path prefix n i name r))
  = (prefix ++ branch ++ name ++ DASH_SEP ++ hd [] lines)
      :: map (fun line => prefix ++ spaces 6 ++ line) (tl lines)
  /\ length (prefix ++ spaces 6) = length (prefix ++ branch) + 2
  /\ length (prefix ++ spaces 6) < length (prefix ++ branch ++ name ++ DASH_SEP).
Proof.
  intros Hr full branch lines. split; [|split].
  - apply visit_file_printed. exact Hr.
  - rewrite !length_app. unfold branch. rewrite branch_length.
    unfold spaces. rewrite repeat_length. lia.
  - rewrite !length_app. unfold branch. rewrite branch_length.
    unfold spaces. rewrite repeat_length. simpl. lia.
Qed.

(** C4 on a file one level down whose summary takes two lines. *)
Lemma C4_summary_block_layout_witness :
  printed (trace (visit_entry posix (py "/r") (py "│   ") 1 0 (py "a.txt")
                    (fun _ => RFile (plain_file (py "hello") long_word))))
  = [py "│   └── a.txt - " ++ repeat 97%N 60; py "│   " ++ spaces 6 ++ py "a"].
Proof.
  pose proof (C4_summary_block_layout posix (py "/r") (py "│   ") 1 0
                (py "a.txt")
                (fun _ => RFile (plain_file (py "hello") long_word))
                (plain_file (py "hello") long_word) eq_refl) as [H _].
  rewrite H. vm_compute. reflexivity.
Defined.

(** ** C5 *)

(** C5: the visit of a directory entry prints its line and calls
    [print_tree] on it with the current prefix extended by exactly four
    spaces when the entry is the last surviving sibling and by exactly
    the vertical bar and three spaces otherwise; every line printed at
    any deeper level starts with that extended prefix. *)
Theorem C5_prefix_extension pf path prefix pats n i name r d' :
  r (path_join pf path name)
  = RDir (fun full new_prefix => print_tree pf full new_prefix pats d') ->
  let full := path_join pf path name in
  let is_last := is_last_of n i in
  let new_prefix :=
    prefix ++ (if is_last then [32; 32; 32; 32]%N else [9474; 32; 32; 32]%N) in
  visit_entry pf path prefix n i name r
  = (EvIsdir full
       :: EvPrint (prefix ++ branch_of is_last ++ name ++ SLASH)
       :: trace (print_tree pf full new_prefix pats d'),
     result (print_tree pf full new_prefix pats d'))
  /\ Forall (fun line => startswith line new_prefix = true)
       (printed (trace (print_tree pf full new_prefix pats d'))).
Proof.
  intros Hr full is_last new_prefix. split.
  - rewrite (visit_dir _ _ _ _ _ _ _ _ Hr).
    unfold new_prefix, is_last, indent_of. destruct (is_last_of n i); reflexivity.
  - apply print_tree_lines_prefixed.
Qed.

(** C5 on the sample tree, entered as the first of two siblings. *)
Lemma C5_prefix_extension_witness :
  printed (trace (visit_entry posix (py "/r") (py "│   ") 2 0 (py "b")
                    (resolve posix [] [(py "b", IsDir sample_tree)] (py "b"))))
  = [ py "│   ├── b/";
      py "│   │   ├── a.txt - about a";
      py "│   │   └── b/";
      py "│   │       └── c.txt - about c" ].
Proof.
  pose proof (C5_prefix_extension posix (py "/r") (py "│   ") [] 2 0 (py "b")
                (resolve posix [] [(py "b", IsDir sample_tree)] (py "b"))
                sample_tree eq_refl) as [H _].
  rewrite H. vm_compute. reflexivity.
Defined.

(** ** C6 *)



(** ** C7 *)

(** C7: a directory whose listing fails with a permission error gets
    exactly one line, the prefix followed by the diagnostic, and
    [print_tree] returns; the visit of such a directory from its parent
    therefore returns too and the rest of the parent's loop [k] runs. *)
Theorem C7_permission_error_is_reported pf path prefix pats msg :
  let e := {| exn_class := PermissionError; exn_str := msg |} in
  print_tree pf path prefix pats (NoList e)
  = ([EvListdir path; EvPrint (prefix ++ NO_ACCESS ++ path ++ CLOSE)],
     Returns tt)
  /\ forall n i name (k : unit -> M unit),
       let full := path_join pf path name in
       let is_last := is_last_of n i in
       bind (visit_entry pf path prefix n i name
               (fun _ => RDir (fun p new_prefix =>
                                 print_tree pf p new_prefix pats (NoList e))))
            k
       = ([EvIsdir full;
           EvPrint (prefix ++ branch_of is_last ++ name ++ SLASH);
           EvListdir full;
           EvPrint ((prefix ++ indent_of is_last) ++ NO_ACCESS ++ full ++ CLOSE)]
            ++ trace (k tt),
          result (k tt)).
Proof.
  intros e. split; [reflexivity|].
  intros n i name k full is_last.
  rewrite (visit_dir _ _ _ _ _ _ _ _ eq_refl).
  fold full is_last. cbn [print_tree].
  rewrite (bind_returns _ _ tt) by reflexivity. reflexivity.
Qed.

(** C7 on a locked directory between two files: one diagnostic line, and
    the file after it is printed. *)
Lemma C7_permission_error_is_reported_witness :
  print_tree posix (py "/r/m") (py "│   ") [] (NoList denied)
  = ([EvListdir (py "/r/m"); EvPrint (py "│   [アクセス権限なし: /r/m]")],
     Returns tt)
  /\ printed (trace (print_tree posix (py "/r") [] [] locked_tree))
     = [ py "├── a.txt - fine";
         py "├── m/";
         py "│   [アクセス権限なし: /r/m]";
         py "└── z.txt - shown" ]
  /\ result (print_tree posix (py "/r") [] [] locked_tree) = Returns tt.
Proof.
  split.
  - exact (proj1 (C7_permission_error_is_reported posix (py "/r/m")
                    (py "│   ") [] (py "denied"))).
  - split; vm_compute; reflexivity.
Defined.

(** ** C8 *)

(** C8: a run on a tree is, event for event, the run on the tree from
    which every entry with an ignored name has been removed, together
    with the whole subtree under it when it is a directory, and the tree
    so pruned has no ignored name left at any depth; in particular the
    run on a directory that has an entry with an ignored name is the run
    on the directory without that entry, whatever lies under it. *)
Theorem C8_ignored_entries_leave_no_trace pf path prefix pats d :
  print_tree pf path prefix pats d
  = print_tree pf path prefix pats (prune pf pats d)
  /\ unignored pf pats (prune pf pats d)
  /\ forall es1 name sub es2,
       d = Listed (es1 ++ (name, sub) :: es2) ->
       ignored pf pats name = true ->
       print_tree pf path prefix pats d
       = print_tree pf path prefix pats (Listed (es1 ++ es2)).
Proof.
  split; [apply print_tree_prune|]. split; [apply prune_unignored|].
  intros es1 name sub es2 -> Hn.
  rewrite print_tree_prune, (prune_drops _ _ _ _ _ _ Hn).
  symmetry. apply print_tree_prune.
Qed.

(** C8 on the sample tree with the pattern [b]: the directory [b] and
    the file in it leave nothing in the output. *)
Lemma C8_ignored_entries_leave_no_trace_witness :
  printed (trace (print_tree posix (py "/r") [] [py "b"] sample_tree))
  = [py "└── a.txt - about a"]
  /\ print_tree posix (py "/r") [] [py "b"] sample_tree
     = print_tree posix (py "/r") [] [py "b"]
         (Listed [(py "a.txt", IsFile (plain_file (py "hello") (py "about a")))]).
Proof.
  split; [vm_compute; reflexivity|].
  destruct (C8_ignored_entries_leave_no_trace posix (py "/r") [] [py "b"]
              sample_tree) as (_ & _ & H).
  exact (H [] (py "b") _ [_] eq_refl eq_refl).
Defined.

(** ** C9 *)

(** C9: when the first directory of the walk whose listing fails for a
    reason other than permissions fails with [e], the call of
    [print_tree] on any directory above it raises [e]; the failed
    [os.listdir] is the last thing the run does.  [print_tree] itself
    does nothing but raise when its own listing fails so. *)
Theorem C9_listing_errors_abort_the_run pf path prefix pats d e :
  crash pf pats d = Some e ->
  is_PermissionError e = false
  /\ result (print_tree pf path prefix pats d) = Raises e
  /\ (exists t p, trace (print_tree pf path prefix pats d) = t ++ [EvListdir p])
  /\ (forall e0 path0 prefix0,
        is_PermissionError e0 = false ->
        print_tree pf path0 prefix0 pats (NoList e0)
        = ([EvListdir path0], Raises e0)).
Proof.
  intros Hc. split; [|split; [|split]].
  - eapply crash_not_permission. exact Hc.
  - rewrite print_tree_result, Hc. reflexivity.
  - apply (print_tree_raises_at_listdir pf pats d path prefix e).
    rewrite print_tree_result, Hc. reflexivity.
  - intros e0 path0 prefix0 He0. rewrite print_tree_NoList, bind_emit, He0.
    reflexivity.
Qed.

(** C9 on a directory that vanishes before it is listed: the run raises
    and the file after it is never printed. *)
Lemma C9_listing_errors_abort_the_run_witness :
  crash posix [] vanishing_tree = Some gone
  /\ result (print_tree posix (py "/r") [] [] vanishing_tree) = Raises gone
  /\ printed (trace (print_tree posix (py "/r") [] [] vanishing_tree))
     = [py "├── a.txt - fine"; py "├── m/"].
Proof.
  pose proof (C9_listing_errors_abort_the_run posix (py "/r") [] []
                vanishing_tree gone eq_refl) as (_ & H & _).
  split; [reflexivity|]. split; [exact H|]. vm_compute. reflexivity.
Defined.

(** ** C10 *)

(** C10: every file is opened in text mode with the encoding UTF-8 and
    no [errors] argument, so decoding is strict; when the read of at most
    5000 characters raises the decode error, [summarize_file] catches it
    and returns the bracketed read diagnostic, no request is sent to the
    summarizer during the visit of that file, and the lines displayed for
    the file are that diagnostic, wrapped like any summary. *)
Theorem C10_undecodable_file pf path prefix n i name r f msg :
  r (path_join pf path name) = RFile f ->
  f_read f 5000 = Raises {| exn_class := UnicodeDecodeError; exn_str := msg |} ->
  let full := path_join pf path name in
  let diagnostic := READ_ERROR ++ msg ++ CLOSE in
  let lines := summary_lines pf diagnostic in
  summarize_file full 5000 f
  = ([EvOpenRead full (py "r") (py "utf-8") None 5000], Returns diagnostic)
  /\ filter is_request (trace (visit_entry pf path prefix n i name r)) = []
  /\ printed (trace (visit_entry pf path prefix n i name r))
     = (prefix ++ branch_of (is_last_of n i) ++ name ++ DASH_SEP ++ hd [] lines)
         :: map (fun line => prefix ++ spaces 6 ++ line) (tl lines)
  /\ (forall pats d path0 prefix0,
        Forall utf8_text_open (trace (print_tree pf path0 prefix0 pats d))).
Proof.
  intros Hr Hread full diagnostic lines.
  assert (Hs : summarize_file full 5000 f
               = ([open_event full], Returns diagnostic)).
  { rewrite summarize_file_cases, Hread. reflexivity. }
  assert (Hsum : summary_of full f = diagnostic).
  { unfold summary_of. rewrite Hs. reflexivity. }
  split; [exact Hs|]. split; [|split].
  - rewrite (visit_file _ _ _ _ _ _ _ _ Hr). fold full. cbn [trace fst].
    cbn [filter is_request]. rewrite filter_app, Hs, file_block_requests.
    reflexivity.
  - rewrite (visit_file_printed _ _ _ _ _ _ _ _ Hr). fold full.
    rewrite Hsum. reflexivity.
  - intros pats d path0 prefix0. apply print_tree_opens.
Qed.

(** C10 on a file that starts with the byte 0xff. *)
Lemma C10_undecodable_file_witness :
  utf8_decode [255%N] = None
  /\ printed (trace (visit_entry posix (py "/r") [] 1 0 (py "bin.dat")
                       (fun _ => RFile (unreadable_file bad_bytes))))
     = [ py "└── bin.dat - [読み取りエラー: 'utf-8' codec can't decode byte 0xff in position";
         py "      0: invalid start byte]" ]
  /\ filter is_request
       (trace (visit_entry posix (py "/r") [] 1 0 (py "bin.dat")
                 (fun _ => RFile (unreadable_file bad_bytes)))) = [].
Proof.
  pose proof (C10_undecodable_file posix (py "/r") [] 1 0 (py "bin.dat")
                (fun _ => RFile (unreadable_file bad_bytes))
                (unreadable_file bad_bytes) (exn_str bad_bytes)
                eq_refl eq_refl) as (_ & Hreq & Hp & _).
  split; [reflexivity|]. split; [|exact Hreq].
  rewrite Hp. vm_compute. reflexivity.
Defined.

(* ================================================================= *)
(** * Further properties of the program *)

(** ** [strip] *)

Lemma lstrip_idem s : lstrip (lstrip s) = lstrip s.
Proof.
  induction s as [|c s IH]; [reflexivity|].
  cbn [lstrip]. destruct (isspace c) eqn:E; [exact IH|].
  cbn [lstrip]. rewrite E. reflexivity.
Qed.

Lemma lstrip_length s : length (lstrip s) <= length s.
Proof.
  induction s as [|c s IH]; [simpl; lia|].
  cbn [lstrip]. destruct (isspace c); simpl; lia.
Qed.

Lemma lstrip_fixed c s : lstrip (c :: s) = c :: s -> isspace c = false.
Proof.
  cbn [lstrip]. destruct (isspace c); [|reflexivity].
  intros H. pose proof (lstrip_length s) as Hl.
  rewrite H in Hl. simpl in Hl. lia.
Qed.

Lemma lstrip_keep c s : isspace c = false -> lstrip (c :: s) = c :: s.
Proof. intros H. cbn [lstrip]. rewrite H. reflexivity. Qed.

(** What [strip] returns has no white space at either end. *)
Lemma strip_trimmed s :
  lstrip (strip s) = strip s /\ lstrip (rev (strip s)) = rev (strip s).
Proof.
  unfold strip, rstrip.
  set (u := lstrip s). set (v := lstrip (rev u)).
  split.
  - destruct (lstrip_split (rev u)) as (p & Hp & _). fold v in Hp.
    assert (Hu : u = rev v ++ rev p).
    { rewrite <- (rev_involutive u), Hp, rev_app_distr. reflexivity. }
    assert (Hfix : lstrip u = u) by apply lstrip_idem.
    destruct (rev v) as [|c t] eqn:Ev; [reflexivity|].
    rewrite Hu in Hfix. cbn [app] in Hfix.
    apply lstrip_keep. eapply lstrip_fixed. exact Hfix.
  - rewrite rev_involutive. apply lstrip_idem.
Qed.

Lemma strip_idem s : strip (strip s) = strip s.
Proof.
  destruct (strip_trimmed s) as [H1 H2].
  unfold strip at 1. unfold rstrip. rewrite H1, H2. apply rev_involutive.
Qed.

Lemma strip_between c s d :
  isspace c = false -> isspace d = false ->
  strip (c :: s ++ [d]) = c :: s ++ [d].
Proof.
  intros Hc Hd. unfold strip, rstrip. rewrite (lstrip_keep c _ Hc).
  change (c :: s ++ [d]) with ((c :: s) ++ [d]).
  rewrite rev_app_distr. cbn [rev app].
  rewrite (lstrip_keep d _ Hd).
  change (d :: rev s ++ [c]) with ([d] ++ rev (c :: s)).
  rewrite rev_app_distr, rev_involutive. reflexivity.
Qed.

(** ** [load_ignore_patterns] and [main] *)


Lemma patterns_of_lines_none lines :
  Forall no_pattern lines -> patterns_of_lines lines = [].
Proof.
  unfold patterns_of_lines.
  induction 1 as [|line lines Hl _ IH]; [reflexivity|].
  cbn [map filter]. rewrite IH.
  destruct Hl as [Hl|Hl]; rewrite Hl; [reflexivity|].
  rewrite orb_true_r. reflexivity.
Qed.

Lemma run_printed_app t1 t2 :
  run_printed (t1 ++ t2) = run_printed t1 ++ run_printed t2.
Proof.
  induction t1 as [|ev t1 IH]; [reflexivity|].
  destruct ev as [p|p m c|[]]; cbn [app run_printed]; rewrite IH; reflexivity.
Qed.

Lemma run_printed_walk t : run_printed (map Ev t) = printed t.
Proof.
  induction t as [|ev t IH]; [reflexivity|].
  destruct ev; cbn [map run_printed printed]; rewrite IH; reflexivity.
Qed.

Lemma main_printed pf it arg_root f d :
  let root := abspath it arg_root in
  let loaded := load_ignore_patterns pf root f in
  let patterns := snd loaded in
  run_printed (fst (main pf it arg_root f d))
  = run_printed (fst loaded)
    ++ (HEADER ++ root)
    :: match patterns with
       | [] => []
       | _ :: _ => [IGNORING ++ path_join pf root IGNORE_TXT ++ COLON_SP
                    ++ str_of_list it patterns]
       end
    ++ printed (trace (print_tree pf root [] patterns d)).
Proof.
  intros root loaded patterns. unfold main. fold root.
  destruct (load_ignore_patterns pf root f) as [loading pats] eqn:El.
  subst loaded patterns. cbn [fst snd].
  rewrite run_printed_app. f_equal. cbn [run_printed]. f_equal.
  rewrite run_printed_app, run_printed_walk.
  destruct pats; reflexivity.
Qed.


(** X1: every pattern [load_ignore_patterns] returns is a non-empty
    string without white space at either end that does not start with
    the comment mark; stripping it again changes nothing. *)
Theorem X1_loaded_patterns_are_clean pf root f pat :
  In pat (snd (load_ignore_patterns pf root f)) ->
  pat <> [] /\ strip pat = pat /\ startswith pat (py "#") = false.
Proof.
  destruct f as [|lines failure]; [intros []|].
  cbn [load_ignore_patterns snd]. unfold patterns_of_lines.
  intros H. apply filter_In in H as [Hin Hok].
  apply in_map_iff in Hin as (line & <- & _).
  apply negb_true_iff, orb_false_iff in Hok as [Hne Hc].
  split; [|split].
  - intros E. rewrite E in Hne. discriminate.
  - apply strip_idem.
  - exact Hc.
Qed.

(** X1 on a file of five lines. *)
Lemma X1_loaded_patterns_are_clean_witness :
  snd (load_ignore_patterns posix (py "/r")
         (IgnoreFile [ py "# build" ++ [LF]; py "  *.log  " ++ [LF]; [LF];
                       py "   # indented comment" ++ [LF]; py "node_modules" ]
            None))
  = [py "*.log"; py "node_modules"]
  /\ py "*.log" <> [] /\ strip (py "*.log") = py "*.log"
  /\ startswith (py "*.log") (py "#") = false.
Proof.
  split; [vm_compute; reflexivity|].
  apply (X1_loaded_patterns_are_clean posix (py "/r")
           (IgnoreFile [ py "# build" ++ [LF]; py "  *.log  " ++ [LF]; [LF];
                         py "   # indented comment" ++ [LF]; py "node_modules" ]
              None)).
  vm_compute. left. reflexivity.
Defined.



(** X4: when [ignore.txt] is absent, or is read to its end and every line
    of it is blank or a comment, [main] prints the header and then the
    tree exactly as a walk without patterns prints it: no line about
    patterns, and nothing filtered. *)
Theorem X4_no_patterns_no_filter pf it arg_root f d :
  f = NoIgnoreFile
  \/ (exists lines, f = IgnoreFile lines None /\ Forall no_pattern lines) ->
  run_printed (fst (main pf it arg_root f d))
  = (HEADER ++ abspath it arg_root)
      :: printed (trace (print_tree pf (abspath it arg_root) [] [] d)).
Proof.
  intros H.
  pose proof (main_printed pf it arg_root f d) as Hp.
  assert (Hl : run_printed (fst (load_ignore_patterns pf (abspath it arg_root) f)) = []
               /\ snd (load_ignore_patterns pf (abspath it arg_root) f) = []).
  { destruct H as [->|(lines & -> & Hall)]; [split; reflexivity|].
    split; [reflexivity|]. cbn [load_ignore_patterns snd].
    apply patterns_of_lines_none. exact Hall. }
  destruct Hl as [Hl1 Hl2]. cbv zeta in Hp. rewrite Hl1, Hl2 in Hp. exact Hp.
Qed.


(** X4 on an [ignore.txt] that holds a comment and a blank line. *)
Lemma X4_no_patterns_no_filter_witness :
  run_printed (fst (main posix sample_interpreter (py "/r")
                      (IgnoreFile [py "# nothing yet" ++ [LF]; py "  " ++ [LF]] None)
                      sample_tree))
  = [ py "# Tree summary of: /r";
      py "├── a.txt - about a";
      py "└── b/";
      py "    └── c.txt - about c" ].
Proof.
  rewrite (X4_no_patterns_no_filter posix sample_interpreter (py "/r")
             (IgnoreFile [py "# nothing yet" ++ [LF]; py "  " ++ [LF]] None)
             sample_tree).
  - vm_compute. reflexivity.
  - right. eexists. split; [reflexivity|].
    constructor; [right; vm_compute; reflexivity|].
    constructor; [left; vm_compute; reflexivity|constructor].
Defined.

(** ** The order of a listing *)

Lemma str_le_antisym a b : str_le a b -> str_le b a -> a = b.
Proof.
  unfold str_le. intros H1 H2.
  destruct (str_ltb_trichotomy a b) as [H|[H|H]]; congruence.
Qed.

Lemma ascending_unique l1 :
  forall l2,
    StronglySorted str_le l1 -> StronglySorted str_le l2 ->
    Permutation l1 l2 -> l1 = l2.
Proof.
  induction l1 as [|x l1 IH]; intros l2 H1 H2 Hp.
  - apply Permutation_nil in Hp. congruence.
  - destruct l2 as [|y l2].
    { apply Permutation_sym, Permutation_nil in Hp. discriminate. }
    inversion H1 as [|? ? Hs1 Ha1]; subst.
    inversion H2 as [|? ? Hs2 Ha2]; subst.
    rewrite Forall_forall in Ha1, Ha2.
    assert (Hxy : x = y).
    { assert (Hx : In x (y :: l2))
        by (eapply Permutation_in; [exact Hp|left; reflexivity]).
      assert (Hy : In y (x :: l1))
        by (eapply Permutation_in;
            [apply Permutation_sym; exact Hp|left; reflexivity]).
      destruct Hx as [->|Hx]; [reflexivity|].
      destruct Hy as [->|Hy]; [reflexivity|].
      apply str_le_antisym; [apply Ha1; exact Hy|apply Ha2; exact Hx]. }
    subst y. f_equal. apply IH; auto.
    eapply Permutation_cons_inv. exact Hp.
Qed.

Lemma sorted_of_permutation l l' : Permutation l l' -> sorted l = sorted l'.
Proof.
  intros Hp. apply ascending_unique; try apply sorted_ascending.
  rewrite <- (sorted_perm l), <- (sorted_perm l'). exact Hp.
Qed.

Lemma lookup_of_In {A} name (l : list (str * A)) v :
  NoDup (map fst l) -> In (name, v) l -> lookup name l = Some v.
Proof.
  induction l as [|[k w] l IH]; intros Hnd Hin; [destruct Hin|].
  cbn [map fst] in Hnd. inversion Hnd as [|? ? Hk Hnd']; subst.
  cbn [lookup]. destruct Hin as [Heq|Hin].
  - injection Heq as -> ->. rewrite str_eqb_refl. reflexivity.
  - destruct (str_eqb k name) eqn:E; [|apply IH; assumption].
    apply str_eqb_eq in E. subst k. exfalso. apply Hk.
    apply in_map_iff. exists (name, v). split; [reflexivity|exact Hin].
Qed.

Lemma lookup_permutation {A} name (l l' : list (str * A)) :
  NoDup (map fst l) -> Permutation l l' -> lookup name l = lookup name l'.
Proof.
  intros Hnd Hp.
  assert (Hnd' : NoDup (map fst l')).
  { eapply Permutation_NoDup; [apply Permutation_map; exact Hp|exact Hnd]. }
  destruct (lookup name l) as [v|] eqn:E.
  - symmetry. apply lookup_of_In; [exact Hnd'|].
    eapply Permutation_in; [exact Hp|]. apply lookup_In. exact E.
  - destruct (lookup name l') as [v|] eqn:E'; [|reflexivity].
    apply lookup_In in E'.
    rewrite (lookup_of_In name l v Hnd) in E; [discriminate|].
    eapply Permutation_in; [apply Permutation_sym; exact Hp|exact E'].
Qed.

(** X5: the output does not depend on the order in which [os.listdir]
    gives the names: two listings of the same entries, without a
    repeated name, give the same run. *)
Theorem X5_listing_order_is_irrelevant pf path prefix pats es es' :
  NoDup (map fst es) -> Permutation es es' ->
  print_tree pf path prefix pats (Listed es)
  = print_tree pf path prefix pats (Listed es').
Proof.
  intros Hnd Hp. rewrite !print_tree_Listed.
  assert (Hs : surviving pf pats (map fst es) = surviving pf pats (map fst es')).
  { unfold surviving.
    rewrite (sorted_of_permutation (map fst es) (map fst es')
               (Permutation_map fst Hp)). reflexivity. }
  rewrite Hs. apply bind_ext; intros _. apply for_each_ext. intros j name _.
  apply visit_entry_ext. unfold resolve.
  rewrite (lookup_permutation name es es' Hnd Hp). reflexivity.
Qed.

(** X5 on the sample tree listed in its two orders. *)
Lemma X5_listing_order_is_irrelevant_witness :
  print_tree posix (py "/r") [] []
    (Listed [ (py "b", IsDir (Listed []));
              (py "a.txt", IsFile (plain_file (py "hello") (py "about a"))) ])
  = print_tree posix (py "/r") [] []
      (Listed [ (py "a.txt", IsFile (plain_file (py "hello") (py "about a")));
                (py "b", IsDir (Listed [])) ]).
Proof.
  apply X5_listing_order_is_irrelevant.
  - repeat constructor; simpl; intuition discriminate.
  - apply perm_swap.
Defined.

(** X6: sorting and filtering neither drop nor repeat a name: the names
    the loop visits are, each as often as it is listed, the names that no
    pattern matches; without patterns they are all the names, so nothing
    is hidden, whatever its name; and a call that returns has visited
    every one of them, in that order. *)
Theorem X6_every_unignored_name_is_visited_once pf path prefix pats es :
  let entries := surviving pf pats (map fst es) in
  Permutation entries
    (filter (fun name => negb (ignored pf pats name)) (map fst es))
  /\ Permutation (surviving pf [] (map fst es)) (map fst es)
  /\ (result (print_tree pf path prefix pats (Listed es)) = Returns tt ->
      trace (print_tree pf path prefix pats (Listed es))
      = EvListdir path
          :: concat
               (map (fun p =>
                       trace (visit_entry pf path prefix (length entries)
                                (fst p) (snd p) (resolve pf pats es (snd p))))
                  (enumerate 0 entries))).
Proof.
  intros entries. split; [|split].
  - unfold entries, surviving. destruct pats as [|p pats].
    + rewrite filter_all by reflexivity. apply Permutation_sym, sorted_perm.
    + rewrite filter_sorted. apply Permutation_sym, sorted_perm.
  - apply Permutation_sym, sorted_perm.
  - intros Hr.
    destruct (print_tree_level pf path prefix pats es) as (k & Hk & Ht & Hret).
    rewrite Ht, (Hret Hr). fold entries.
    rewrite firstn_all2; [reflexivity|].
    unfold enumerate. rewrite length_combine, length_seq. lia.
Qed.

(** ** Paths *)

Lemma startswith_refl p : startswith p p = true.
Proof. rewrite <- (app_nil_r p) at 1. apply startswith_app. Qed.

Lemma posix_join_extends a b :
  startswith b SLASH = false -> exists sfx, posix_join a b = a ++ sfx.
Proof.
  intros H. unfold posix_join. change (py "/") with SLASH. rewrite H.
  destruct a as [|c a]; [exists b; reflexivity|].
  destruct (endswith (c :: a) SLASH); eexists; reflexivity.
Qed.

Lemma within_above root full ev :
  (exists sfx, full = root ++ sfx) -> within full ev -> within root ev.
Proof.
  intros (sfx & ->). unfold within.
  destruct (event_path ev); [apply startswith_app_l|auto].
Qed.

Lemma within_join root name :
  startswith name SLASH = false ->
  startswith (posix_join root name) root = true.
Proof.
  intros H. destruct (posix_join_extends root name H) as (sfx & ->).
  apply startswith_app.
Qed.

Lemma well_named_Listed es :
  well_named (Listed es)
  <-> Forall (fun ne =>
                startswith (fst ne) SLASH = false
                /\ match snd ne with
                   | IsFile _ => True
                   | IsDir d' => well_named d'
                   end) es.
Proof.
  cbn [well_named]. induction es as [|ne es IH].
  - split; [constructor|exact (fun _ => I)].
  - split.
    + intros (H1 & H2 & H3). constructor; [split; assumption|].
      apply IH. exact H3.
    + intros H. inversion H as [|? ? [H1 H2] H3]; subst.
      split; [exact H1|]. split; [exact H2|]. apply IH. exact H3.
Qed.

Lemma Forall_concat_map {A B} (P : B -> Prop) (f : A -> list B) l :
  (forall x, In x l -> Forall P (f x)) -> Forall P (concat (map f l)).
Proof.
  induction l as [|x l IH]; intros H; [constructor|].
  cbn [map concat]. apply Forall_app. split.
  - apply H. left; reflexivity.
  - apply IH. intros y Hy. apply H. right; exact Hy.
Qed.

Lemma in_firstn_enumerate {A} k i (l : list A) p :
  In p (firstn k (enumerate i l)) -> In (snd p) l.
Proof.
  intros H.
  assert (H' : In p (enumerate i l)).
  { rewrite <- (firstn_skipn k (enumerate i l)). apply in_or_app. left.
    exact H. }
  destruct p as [j x]. unfold enumerate in H'.
  apply in_combine_r in H'. exact H'.
Qed.

Lemma visit_file_within root prefix n i name r f :
  r (path_join posix root name) = RFile f ->
  startswith name SLASH = false ->
  Forall (within root) (trace (visit_entry posix root prefix n i name r)).
Proof.
  intros Hr Hn. rewrite (visit_file _ _ _ _ _ _ _ f Hr). cbn [trace fst].
  pose proof (within_join root name Hn) as Hj.
  constructor; [exact Hj|]. apply Forall_app. split.
  - rewrite summarize_file_cases.
    destruct (f_read f 5000) as [content|e];
      [destruct (f_respond f (prompt_of content))|];
      repeat constructor; exact Hj.
  - rewrite file_block_run. cbn [trace fst]. constructor; [exact I|].
    apply Forall_map, Forall_forall. intros; exact I.
Qed.

Lemma print_tree_within pats d :
  well_named d ->
  forall root prefix,
    Forall (within root) (trace (print_tree posix root prefix pats d)).
Proof.
  induction d as [e|es IH] using dir_tree_ind; intros Hwn root prefix.
  - rewrite print_tree_NoList, bind_emit.
    destruct (is_PermissionError e); cbn [trace fst emit raise];
      repeat constructor; apply startswith_refl.
  - destruct (print_tree_level posix root prefix pats es) as (k & _ & Ht & _).
    rewrite Ht. constructor; [apply startswith_refl|].
    apply Forall_concat_map. intros [j name] Hin.
    apply in_firstn_enumerate in Hin. cbn [fst snd] in *.
    apply surviving_in in Hin as [Hin _].
    apply well_named_Listed in Hwn. rewrite Forall_forall in Hwn.
    apply in_map_iff in Hin as ([k0 en] & Hk0 & Hin). cbn [fst] in Hk0. subst k0.
    pose proof (Hwn _ Hin) as [Hname _]. cbn [fst] in Hname.
    unfold resolve. destruct (lookup name es) as [[f|d']|] eqn:Hl.
    + apply (visit_file_within _ _ _ _ _ _ f); [reflexivity|exact Hname].
    + rewrite (visit_dir _ _ _ _ _ _ _ _ eq_refl). cbn [trace fst].
      pose proof (within_join root name Hname) as Hj.
      constructor; [exact Hj|]. constructor; [exact I|].
      apply lookup_In in Hl. pose proof (Hwn _ Hl) as [_ Hd']. cbn [snd] in Hd'.
      eapply Forall_impl;
        [|apply (IH name d' Hl Hd' (path_join posix root name))].
      intros ev. apply within_above.
      exact (posix_join_extends root name Hname).
    + apply (visit_file_within _ _ _ _ _ _
               (vanished (path_join posix root name)));
        [reflexivity|exact Hname].
Qed.

(** X7: on a POSIX platform a walk stays under the directory it was
    given: when no name in the tree starts with the path separator, as
    is the case of names from [os.listdir], every path that [print_tree]
    lists, tests or opens starts with the root path of the call. *)
Theorem X7_walk_stays_under_its_root pats d root prefix :
  well_named d ->
  Forall (within root) (trace (print_tree posix root prefix pats d)).
Proof. intros H. apply print_tree_within. exact H. Qed.

(** X7 on the sample tree: the paths of its events. *)
Lemma X7_walk_stays_under_its_root_witness :
  well_named sample_tree
  /\ Forall (within (py "/r")) (trace (print_tree posix (py "/r") [] [] sample_tree))
  /\ (fun t => flat_map (fun ev => match event_path ev with
                                   | Some p => [p]
                                   | None => []
                                   end) t)
       (trace (print_tree posix (py "/r") [] [] sample_tree))
     = [ py "/r"; py "/r/a.txt"; py "/r/a.txt"; py "/r/b"; py "/r/b";
         py "/r/b/c.txt"; py "/r/b/c.txt" ].
Proof.
  assert (H : well_named sample_tree) by (vm_compute; tauto).
  split; [exact H|]. split.
  - apply (X7_walk_stays_under_its_root [] sample_tree (py "/r") [] H).
  - vm_compute. reflexivity.
Defined.

(** ** Requests *)

Lemma requests_follow_reads_weaken b t :
  requests_follow_reads false t = true -> requests_follow_reads b t = true.
Proof.
  destruct t as [|ev t]; [reflexivity|]. cbn [requests_follow_reads].
  destruct (is_request ev); [discriminate|]. destruct b; exact (fun H => H).
Qed.

Lemma requests_follow_reads_app b t1 t2 :
  requests_follow_reads b t1 = true ->
  requests_follow_reads false t2 = true ->
  requests_follow_reads b (t1 ++ t2) = true.
Proof.
  revert b. induction t1 as [|ev t1 IH]; intros b H1 H2.
  - apply requests_follow_reads_weaken. exact H2.
  - cbn [app requests_follow_reads] in *.
    apply andb_true_iff in H1 as [Ha Hb]. rewrite Ha. cbn [andb].
    apply IH; assumption.
Qed.

Lemma requests_follow_reads_concat {A} (f : A -> list event) l :
  (forall x, In x l -> requests_follow_reads false (f x) = true) ->
  requests_follow_reads false (concat (map f l)) = true.
Proof.
  induction l as [|x l IH]; intros H; [reflexivity|].
  cbn [map concat]. apply requests_follow_reads_app.
  - apply H. left; reflexivity.
  - apply IH. intros y Hy. apply H. right; exact Hy.
Qed.

Lemma requests_follow_reads_count b t :
  requests_follow_reads b t = true ->
  count is_request t <= count is_open t + (if b then 1 else 0).
Proof.
  unfold count. revert b. induction t as [|ev t IH]; intros b H.
  - simpl. lia.
  - cbn [requests_follow_reads] in H. apply andb_true_iff in H as [Ha Hb].
    specialize (IH _ Hb). cbn [filter].
    destruct ev; cbn [is_request is_open] in *; cbn [length];
      destruct b; try discriminate; lia.
Qed.

Lemma file_visit_requests path f prefix branch name lines :
  requests_follow_reads false
    (trace (summarize_file path 5000 f)
     ++ trace (file_block prefix branch name lines)) = true.
Proof.
  apply requests_follow_reads_app.
  - rewrite summarize_file_cases.
    destruct (f_read f 5000) as [content|e];
      [destruct (f_respond f (prompt_of content))|]; reflexivity.
  - rewrite file_block_run. cbn [trace fst requests_follow_reads is_request
                                  is_open andb].
    induction (tl lines) as [|l ls IH]; [reflexivity|exact IH].
Qed.

Lemma print_tree_requests pf pats d :
  forall path prefix,
    requests_follow_reads false (trace (print_tree pf path prefix pats d))
    = true.
Proof.
  induction d as [e|es IH] using dir_tree_ind; intros path prefix.
  - rewrite print_tree_NoList, bind_emit.
    destruct (is_PermissionError e); reflexivity.
  - destruct (print_tree_level pf path prefix pats es) as (k & _ & Ht & _).
    rewrite Ht. cbn [requests_follow_reads is_request is_open andb].
    apply requests_follow_reads_concat. intros [j name] _. cbn [fst snd].
    unfold resolve. destruct (lookup name es) as [[f|d']|] eqn:Hl.
    + rewrite (visit_file _ _ _ _ _ _ _ f eq_refl). cbn [trace fst].
      cbn [requests_follow_reads is_request is_open andb].
      apply file_visit_requests.
    + rewrite (visit_dir _ _ _ _ _ _ _ _ eq_refl). cbn [trace fst].
      cbn [requests_follow_reads is_request is_open andb].
      apply (IH name d' (lookup_In _ _ _ Hl)).
    + rewrite (visit_file _ _ _ _ _ _ _
                 (vanished (path_join pf path name)) eq_refl).
      cbn [trace fst]. cbn [requests_follow_reads is_request is_open andb].
      apply file_visit_requests.
Qed.

(** X8: the summarizer is never asked twice about a file and never
    about a file that was not read: in the trace of any walk every
    request comes straight after the opening and reading of a file, so
    that the requests are at most as many as the files opened. *)
Theorem X8_one_request_per_file_read pf pats d path prefix :
  let t := trace (print_tree pf path prefix pats d) in
  requests_follow_reads false t = true
  /\ count is_request t <= count is_open t.
Proof.
  intros t. pose proof (print_tree_requests pf pats d path prefix) as H.
  split; [exact H|].
  pose proof (requests_follow_reads_count _ _ H) as Hc. fold t in Hc.
  cbn iota in Hc. lia.
Qed.

(** ** The summary text *)

Lemma bracketed_trimmed opening msg :
  (exists c s, opening = c :: s /\ isspace c = false) ->
  strip (opening ++ msg ++ CLOSE) = opening ++ msg ++ CLOSE.
Proof.
  intros (c & s & -> & Hc).
  change CLOSE with [93%N].
  replace ((c :: s) ++ msg ++ [93%N]) with (c :: (s ++ msg) ++ [93%N])
    by (rewrite <- app_assoc; reflexivity).
  apply strip_between; [exact Hc|reflexivity].
Qed.

(** X9: whatever the cap on the characters read, [summarize_file]
    returns a text, and that text has no white space at either end,
    whichever of its three exits it leaves by: the answer of the
    summarizer is stripped and both diagnostics stand in brackets.  So
    stripping it again changes nothing. *)
Theorem X9_summary_text_is_trimmed path max_chars f :
  exists s,
    result (summarize_file path max_chars f) = Returns s /\ strip s = s.
Proof.
  unfold summarize_file. rewrite bind_emit. cbn [result snd].
  destruct (f_read f max_chars) as [content|e].
  - rewrite bind_emit. cbn [result snd].
    destruct (f_respond f (prompt_of content)) as [output_text|e];
      cbn [ret result snd]; eexists; (split; [reflexivity|]).
    + apply strip_idem.
    + apply (bracketed_trimmed SUMMARY_ERROR (exn_str e)).
      eexists _, _. split; reflexivity.
  - cbn [ret result snd]. eexists. split; [reflexivity|].
    apply (bracketed_trimmed READ_ERROR (exn_str e)).
    eexists _, _. split; reflexivity.
Qed.

(** ** Wrapping loses no visible character *)

Lemma visible_app a b : visible (a ++ b) = visible a ++ visible b.
Proof. apply filter_app. Qed.

Lemma visible_cons c s :
  visible (c :: s) = if isspace c then visible s else c :: visible s.
Proof. unfold visible. cbn [filter]. destruct (isspace c); reflexivity. Qed.

Lemma visible_spaces n : visible (spaces n) = [].
Proof. induction n as [|n IH]; [reflexivity|exact IH]. Qed.

Lemma is_ws_isspace c : Textwrap.is_ws c = true -> isspace c = true.
Proof.
  unfold Textwrap.is_ws. rewrite !orb_true_iff, !N.eqb_eq.
  intros [[[[[-> | ->] | ->] | ->] | ->] | ->]; reflexivity.
Qed.

Lemma visible_expandtabs tabsize s :
  forall col, visible (Textwrap.expandtabs tabsize col s) = visible s.
Proof.
  induction s as [|c s IH]; intros col; [reflexivity|].
  cbn [Textwrap.expandtabs]. destruct (c =? 9)%N eqn:Et.
  - apply N.eqb_eq in Et. subst c.
    rewrite visible_app, visible_spaces, IH. reflexivity.
  - destruct ((c =? 10) || (c =? 13))%N; rewrite !visible_cons, IH;
      reflexivity.
Qed.

Lemma visible_munge text :
  visible (Textwrap.munge_whitespace text) = visible text.
Proof.
  unfold Textwrap.munge_whitespace.
  rewrite <- (visible_expandtabs 8 text 0).
  induction (Textwrap.expandtabs 8 0 text) as [|c s IH]; [reflexivity|].
  cbn [map]. rewrite !visible_cons, IH.
  destruct (Textwrap.is_ws c) eqn:E; [|reflexivity].
  rewrite (is_ws_isspace c E). reflexivity.
Qed.

Lemma visible_join lines : visible (join LF lines) = visible (concat lines).
Proof.
  induction lines as [|l [|l' ls] IH]; [reflexivity| |].
  - cbn [join concat]. rewrite app_nil_r. reflexivity.
  - change (join LF (l :: l' :: ls)) with (l ++ LF :: join LF (l' :: ls)).
    change (concat (l :: l' :: ls)) with (l ++ concat (l' :: ls)).
    rewrite !visible_app, visible_cons, IH. reflexivity.
Qed.

Lemma blank_visible l : Textwrap.blankb l = true -> visible l = [].
Proof.
  unfold Textwrap.blankb. destruct (strip l) eqn:E; [|discriminate].
  intros _. apply strip_nil_blank in E.
  induction l as [|c l IH]; [reflexivity|].
  cbn [forallb] in E. apply andb_true_iff in E as [Ec El].
  rewrite visible_cons, Ec. apply IH. exact El.
Qed.

Lemma chunk_len_pos pf before c s :
  1 <= Textwrap.chunk_len pf before (c :: s).
Proof.
  unfold Textwrap.chunk_len. destruct (Textwrap.is_ws c) eqn:E.
  - cbn [Textwrap.ws_run]. rewrite E. lia.
  - destruct before as [|p before']; [lia|].
    destruct (Textwrap.word_punct pf p); [|lia].
    destruct (Textwrap.emdash_here pf (c :: s)) as [n|] eqn:En; [|lia].
    apply emdash_here_some in En. lia.
Qed.

(** The chunks are the text, cut. *)
Lemma split_from_concat pf :
  forall fuel before s,
    length s <= fuel -> concat (Textwrap.split_from pf fuel before s) = s.
Proof.
  induction fuel as [|fuel IH]; intros before [|c s] H;
    cbn [length] in H; try lia; try reflexivity.
  cbn [Textwrap.split_from concat].
  pose proof (chunk_len_pos pf before c s) as Hn.
  rewrite IH; [apply firstn_skipn|].
  rewrite length_skipn. cbn [length]. lia.
Qed.

Lemma next_line_visible width have c0 rest0 line3 chunks3 :
  1 <= width ->
  Textwrap.next_line width have c0 rest0 = (line3, chunks3) ->
  visible (concat line3) ++ visible (concat chunks3)
  = visible (concat (c0 :: rest0)).
Proof.
  intros Hw H.
  destruct (next_line_shape _ _ _ _ _ _ Hw H)
    as (line1 & chunks2 & line2 & H1 & _ & _ & H2 & H3).
  assert (E0 : visible (concat (c0 :: rest0))
               = visible (concat line1) ++ visible (concat chunks2)).
  { pose proof (f_equal (fun l => visible (concat l)) H1) as H1'.
    cbv beta in H1'. rewrite concat_app, visible_app in H1'.
    rewrite <- H1'.
    destruct (Textwrap.blankb c0) eqn:Eb; [|reflexivity].
    destruct have; [|reflexivity].
    cbn [andb concat]. rewrite visible_app, (blank_visible _ Eb). reflexivity. }
  assert (E2 : visible (concat line2) ++ visible (concat chunks3)
               = visible (concat line1) ++ visible (concat chunks2)).
  { destruct H2 as [(-> & -> & _)|(c & rest' & e & -> & _ & _ & _ & -> & ->)];
      [reflexivity|].
    rewrite concat_app. cbn [concat]. rewrite app_nil_r.
    rewrite !visible_app, <- app_assoc. f_equal.
    rewrite app_assoc, <- visible_app, firstn_skipn. reflexivity. }
  rewrite E0, <- E2. f_equal.
  destruct H3 as [->|(l & -> & Hl)]; [reflexivity|].
  rewrite concat_app. cbn [concat]. rewrite app_nil_r.
  rewrite visible_app, (blank_visible _ Hl), app_nil_r. reflexivity.
Qed.

Lemma wrap_loop_visible width :
  1 <= width ->
  forall fuel have chunks lines,
    Textwrap.wrap_loop fuel width have chunks = Some lines ->
    visible (concat lines) = visible (concat chunks).
Proof.
  intros Hw. induction fuel as [|fuel IH]; intros have [|c0 rest0] lines;
    cbn [Textwrap.wrap_loop]; try discriminate;
    try (intros [= <-]; reflexivity).
  destruct (Textwrap.next_line width have c0 rest0) as [cur chunks'] eqn:E.
  pose proof (next_line_visible _ _ _ _ _ _ Hw E) as Hv.
  destruct cur as [|l cur].
  - intros H. rewrite (IH _ _ _ H). exact Hv.
  - destruct (Textwrap.wrap_loop fuel width true chunks') as [ls|] eqn:El;
      [|discriminate].
    cbn [option_map]. intros [= <-].
    change (visible (concat (l :: cur) ++ concat ls)
            = visible (concat (c0 :: rest0))).
    rewrite visible_app, (IH _ _ _ El). exact Hv.
Qed.

Lemma wrap_visible pf width text :
  1 <= width ->
  visible (concat (Textwrap.wrap pf width text)) = visible text.
Proof.
  intros Hw. pose proof (wrap_some pf width text Hw) as H.
  unfold Textwrap.wrap_chunks in H.
  rewrite (wrap_loop_visible width Hw _ _ _ _ H).
  unfold Textwrap.split_chunks.
  rewrite split_from_concat by lia. apply visible_munge.
Qed.

(** X10: wrapping a summary loses and adds nothing but white space: the
    characters of [textwrap.fill(summary, width=60)] that are not white
    space, and those of the lines [print_tree] cuts it into, are the
    characters of the summary that are not white space, in their
    order. *)
Theorem X10_wrapping_keeps_the_visible_text pf summary :
  visible (Textwrap.fill pf 60 summary) = visible summary
  /\ visible (concat (summary_lines pf summary)) = visible summary.
Proof.
  assert (Hw : 1 <= 60) by lia.
  pose proof (wrap_visible pf 60 summary Hw) as H.
  split.
  - unfold Textwrap.fill. rewrite visible_join. exact H.
  - rewrite summary_lines_wrap.
    destruct (Textwrap.wrap pf 60 summary) as [|l ls]; exact H.
Qed.

(** ** Patterns without wildcards, and with one star *)

Lemma literal_cons c pat :
  literal (c :: pat) ->
  (c =? Fnmatch.c_star)%N = false /\ (c =? Fnmatch.c_qmark)%N = false
  /\ (c =? Fnmatch.c_lbrack)%N = false /\ literal pat.
Proof.
  intros (H1 & H2 & H3).
  split; [apply N.eqb_neq; intros ->; apply H1; left; reflexivity|].
  split; [apply N.eqb_neq; intros ->; apply H2; left; reflexivity|].
  split; [apply N.eqb_neq; intros ->; apply H3; left; reflexivity|].
  unfold literal.
  split; [intros H; apply H1; right; exact H|].
  split; intros H; [apply H2|apply H3]; right; exact H.
Qed.

Lemma translate_literal_app lit rest :
  literal lit ->
  Fnmatch.translate_from 0 (lit ++ rest)
  = map Fnmatch.LIT lit ++ Fnmatch.translate_from 0 rest.
Proof.
  induction lit as [|c lit IH]; intros H; [reflexivity|].
  apply literal_cons in H as (Hs & Hq & Hb & Hl).
  cbn [app map Fnmatch.translate_from]. rewrite Hs, Hq, Hb, (IH Hl).
  reflexivity.
Qed.

Lemma matches_lits_app lit more :
  forall name,
    Fnmatch.matches (map Fnmatch.LIT lit ++ more) name = true
    <-> exists rest, name = lit ++ rest /\ Fnmatch.matches more rest = true.
Proof.
  induction lit as [|c lit IH]; intros name.
  - cbn [map app]. split.
    + intros H. exists name. split; [reflexivity|exact H].
    + intros (rest & -> & H). exact H.
  - cbn [map app Fnmatch.matches]. destruct name as [|x name].
    + split; [discriminate|]. intros (rest & H & _). discriminate.
    + cbn [Fnmatch.item_matches]. rewrite andb_true_iff, N.eqb_eq, IH.
      split.
      * intros (-> & rest & -> & H). exists rest. split; [reflexivity|exact H].
      * intros (rest & [= -> ->] & H). split; [reflexivity|].
        exists rest. split; [reflexivity|exact H].
Qed.

Lemma star_closure_true f s :
  star_closure f s = true <-> exists a b, s = a ++ b /\ f b = true.
Proof.
  induction s as [|x s IH]; cbn [star_closure].
  - rewrite orb_false_r. split.
    + intros H. exists [], []. split; [reflexivity|exact H].
    + intros (a & b & E & H). symmetry in E.
      apply app_eq_nil in E as [_ ->]. exact H.
  - rewrite orb_true_iff, IH. split.
    + intros [H|(a & b & -> & H)].
      * exists [], (x :: s). split; [reflexivity|exact H].
      * exists (x :: a), b. split; [reflexivity|exact H].
    + intros ([|y a] & b & E & H).
      * left. cbn [app] in E. subst b. exact H.
      * right. injection E as -> ->. exists a, b.
        split; [reflexivity|exact H].
Qed.

Lemma matches_lits lit name :
  Fnmatch.matches (map Fnmatch.LIT lit) name = true <-> name = lit.
Proof.
  rewrite <- (app_nil_r (map Fnmatch.LIT lit)), matches_lits_app.
  cbn [Fnmatch.matches]. split.
  - intros (rest & -> & H). destruct rest; [|discriminate].
    apply app_nil_r.
  - intros ->. exists []. split; [symmetry; apply app_nil_r|reflexivity].
Qed.

Lemma translate_literal lit :
  literal lit -> Fnmatch.translate_from 0 lit = map Fnmatch.LIT lit.
Proof.
  intros Hl. pose proof (translate_literal_app lit [] Hl) as E.
  rewrite app_nil_r in E. cbn [Fnmatch.translate_from] in E.
  rewrite app_nil_r in E. exact E.
Qed.

Lemma fnmatchcase_literal lit name :
  literal lit -> (Fnmatch.fnmatchcase name lit = true <-> name = lit).
Proof.
  intros Hl. unfold Fnmatch.fnmatchcase, Fnmatch.translate.
  rewrite (translate_literal lit Hl). apply matches_lits.
Qed.

Lemma fnmatchcase_suffix lit name :
  literal lit ->
  (Fnmatch.fnmatchcase name (Fnmatch.c_star :: lit) = true
   <-> exists stem, name = stem ++ lit).
Proof.
  intros Hl. unfold Fnmatch.fnmatchcase, Fnmatch.translate.
  assert (Et : Fnmatch.translate_from 0 (Fnmatch.c_star :: lit)
               = Fnmatch.STAR :: map Fnmatch.LIT lit).
  { cbn [Fnmatch.translate_from]. rewrite N.eqb_refl.
    rewrite (translate_literal lit Hl).
    destruct lit as [|c lit]; reflexivity. }
  rewrite Et, matches_STAR, star_closure_true. split.
  - intros (a & b & -> & H). exists a. f_equal.
    apply matches_lits. exact H.
  - intros (stem & ->). exists stem, lit. split; [reflexivity|].
    apply matches_lits. reflexivity.
Qed.

Lemma fnmatchcase_prefix lit name :
  literal lit ->
  (Fnmatch.fnmatchcase name (lit ++ [Fnmatch.c_star]) = true
   <-> exists rest, name = lit ++ rest).
Proof.
  intros Hl. unfold Fnmatch.fnmatchcase, Fnmatch.translate.
  rewrite (translate_literal_app lit _ Hl), matches_lits_app.
  change (Fnmatch.translate_from 0 [Fnmatch.c_star]) with [Fnmatch.STAR].
  split.
  - intros (rest & -> & _). exists rest. reflexivity.
  - intros (rest & ->). exists rest. split; [reflexivity|].
    rewrite matches_STAR. apply star_closure_true.
    exists rest, []. split; [symmetry; apply app_nil_r|reflexivity].
Qed.

(** X11: patterns without [*], [?] and the opening bracket are names: when
    every pattern of the list, as [os.path.normcase] leaves it, is free
    of the three, an entry is skipped exactly when its name, normalised
    the same way, is in the normalised list. *)
Theorem X11_plain_patterns_are_names pf pats name :
  Forall (fun pat => literal (normcase pf pat)) pats ->
  (ignored pf pats name = true
   <-> In (normcase pf name) (map (normcase pf) pats)).
Proof.
  intros Hall. unfold ignored. rewrite existsb_exists, in_map_iff.
  rewrite Forall_forall in Hall. split.
  - intros (pat & Hin & H). exists pat. split; [|exact Hin].
    symmetry. apply (fnmatchcase_literal _ _ (Hall _ Hin)). exact H.
  - intros (pat & E & Hin). exists pat. split; [exact Hin|].
    apply (fnmatchcase_literal _ _ (Hall _ Hin)). symmetry. exact E.
Qed.

(** X11 with the patterns [b] and [a.txt]: the directory [b] is skipped
    and the file [bb] is not. *)
Lemma X11_plain_patterns_are_names_witness :
  Forall (fun pat => literal (normcase posix pat)) [py "b"; py "a.txt"]
  /\ ignored posix [py "b"; py "a.txt"] (py "b") = true
  /\ ~ ignored posix [py "b"; py "a.txt"] (py "bb") = true.
Proof.
  assert (H : Forall (fun pat => literal (normcase posix pat))
                [py "b"; py "a.txt"]).
  { repeat constructor; vm_compute; intros H;
      repeat (destruct H as [H|H]; [discriminate|]); exact H. }
  split; [exact H|]. split.
  - apply (proj2 (X11_plain_patterns_are_names posix _ (py "b") H)).
    left. reflexivity.
  - intros Hi.
    apply (proj1 (X11_plain_patterns_are_names posix _ (py "bb") H)) in Hi.
    vm_compute in Hi.
    repeat (destruct Hi as [Hi|Hi]; [discriminate|]). exact Hi.
Defined.

(** X12: where [os.path.normcase] changes nothing, as on POSIX, a star
    before a text without wildcards skips the names that end with the
    text, and a star after it the names that start with it; the name is
    the bare name of the entry, so nothing else decides. *)
Theorem X12_star_patterns_select_by_suffix_and_prefix pf lit name :
  (forall s, normcase pf s = s) ->
  literal lit ->
  (ignored pf [Fnmatch.c_star :: lit] name = true
   <-> exists stem, name = stem ++ lit)
  /\ (ignored pf [lit ++ [Fnmatch.c_star]] name = true
      <-> exists rest, name = lit ++ rest).
Proof.
  intros Hnc Hl. unfold ignored, Fnmatch.fnmatch. cbn [existsb].
  rewrite !orb_false_r, !Hnc. split.
  - apply fnmatchcase_suffix. exact Hl.
  - apply fnmatchcase_prefix. exact Hl.
Qed.

(** X12 with the pattern [*.log]: [debug.log] is skipped, [log.txt] is
    kept. *)
Lemma X12_star_patterns_select_by_suffix_and_prefix_witness :
  (forall s, normcase posix s = s)
  /\ literal (py ".log")
  /\ ignored posix [py "*.log"] (py "debug.log") = true
  /\ ignored posix [py "*.log"] (py "log.txt") = false.
Proof.
  assert (Hnc : forall s, normcase posix s = s) by reflexivity.
  assert (Hl : literal (py ".log")).
  { repeat split; vm_compute; intros H;
      repeat (destruct H as [H|H]; [discriminate|]); exact H. }
  split; [exact Hnc|]. split; [exact Hl|]. split.
  - apply (proj2 (proj1 (X12_star_patterns_select_by_suffix_and_prefix
                           posix (py ".log") (py "debug.log") Hnc Hl))).
    exists (py "debug"). reflexivity.
  - reflexivity.
Defined.

(** ** The patterns as a set *)

Lemma ignored_same_members pf pats pats' name :
  (forall p, In p pats <-> In p pats') ->
  ignored pf pats name = ignored pf pats' name.
Proof.
  intros H. unfold ignored. apply eq_true_iff_eq.
  rewrite !existsb_exists. split; intros (p & Hin & Hm); exists p;
    (split; [apply H; exact Hin|exact Hm]).
Qed.

Lemma surviving_same_members pf pats pats' listing :
  (forall p, In p pats <-> In p pats') ->
  surviving pf pats listing = surviving pf pats' listing.
Proof.
  intros H. unfold surviving.
  destruct pats as [|p pats], pats' as [|p' pats'].
  - reflexivity.
  - destruct (proj2 (H p') (or_introl eq_refl)).
  - destruct (proj1 (H p) (or_introl eq_refl)).
  - apply filter_ext. intros name.
    rewrite (ignored_same_members pf _ _ name H). reflexivity.
Qed.

Lemma print_tree_same_members pf pats pats' d :
  (forall p, In p pats <-> In p pats') ->
  forall path prefix,
    print_tree pf path prefix pats d = print_tree pf path prefix pats' d.
Proof.
  intros H. induction d as [e|es IH] using dir_tree_ind; intros path prefix.
  - reflexivity.
  - rewrite !print_tree_Listed.
    rewrite (surviving_same_members pf pats pats' _ H).
    apply bind_ext; intros _. apply for_each_ext. intros j name _.
    destruct (lookup name es) as [[f|d']|] eqn:Hl.
    + apply visit_entry_ext. unfold resolve. rewrite Hl. reflexivity.
    + rewrite (visit_dir pf path prefix _ j name (resolve pf pats es name)
                 (fun full' new_prefix =>
                    print_tree pf full' new_prefix pats d'))
        by (unfold resolve; rewrite Hl; reflexivity).
      rewrite (visit_dir pf path prefix _ j name (resolve pf pats' es name)
                 (fun full' new_prefix =>
                    print_tree pf full' new_prefix pats' d'))
        by (unfold resolve; rewrite Hl; reflexivity).
      rewrite (IH name d' (lookup_In _ _ _ Hl)). reflexivity.
    + apply visit_entry_ext. unfold resolve. rewrite Hl. reflexivity.
Qed.

(** X13: the patterns act as a set: two pattern lists with the same
    members, in whatever order and however often repeated, give the
    same walk, event for event, at every level of the tree. *)
Theorem X13_patterns_act_as_a_set pf pats pats' d path prefix :
  (forall p, In p pats <-> In p pats') ->
  print_tree pf path prefix pats d = print_tree pf path prefix pats' d.
Proof. intros H. apply print_tree_same_members. exact H. Qed.

(** X13 on the sample tree, with two patterns swapped and one repeated. *)
Lemma X13_patterns_act_as_a_set_witness :
  (forall p, In p [py "b"; py "*.log"] <-> In p [py "*.log"; py "b"; py "*.log"])
  /\ print_tree posix (py "/r") [] [py "b"; py "*.log"] sample_tree
     = print_tree posix (py "/r") [] [py "*.log"; py "b"; py "*.log"] sample_tree.
Proof.
  assert (H : forall p, In p [py "b"; py "*.log"]
                        <-> In p [py "*.log"; py "b"; py "*.log"]).
  { intros p. cbn [In]. tauto. }
  split; [exact H|].
  apply (X13_patterns_act_as_a_set posix _ _ sample_tree (py "/r") [] H).
Defined.
